(** * Synchronized cross-GPU batch normalisation: the [SharedTensor] barrier

    A shallow embedding of [encoding/nn/syncbn.py].

    [SharedTensor.__call__] is run by several threads on one shared object.
    Every access to the shared fields happens inside a [with self.mutex] or a
    [with self.all_tasks_done] block (the condition variable is built on the
    same mutex), so each block is one atomic step of the calling thread; a
    thread that calls [wait()] releases the mutex and sleeps until some
    thread calls [notify_all()], after which it re-acquires the mutex and
    tests its loop condition again (a sleeping thread moves only when it
    is notified, as in CPython).  The final [return] reads [self.list]
    twice, outside of any lock: these are two further steps.  An exception
    raised inside a [with] block releases the lock and ends the call of
    the thread that raised it.

    A configuration is the shared object, the program counter of every
    thread, and a log of what happened (a ghost: the code keeps none).
    The threads interleave arbitrarily: any thread that does not sleep
    may take the next step.

    [encoding.parallel.allreduce] is a parameter of the development: a
    function from its arguments to a new buffer or an error. *)

From Stdlib Require Import ZArith Lia Floats.
From stdpp Require Import base tactics option list list_numbers.

Local Open Scope Z_scope.

(** ** Python values used by the barrier *)

(** [l[i]] on a Python sequence: negative indices count from the end, and
    an index out of range raises [IndexError] (here [None]). *)
Definition py_getitem {A} (l : list A) (i : Z) : option A :=
  let len := Z.of_nat (length l) in
  if (0 <=? i) && (i <? len) then l !! Z.to_nat i
  else if (- len <=? i) && (i <? 0) then l !! Z.to_nat (len + i)
  else None.

(** [list( *inputs )]: [list()] is the empty list, [list(x)] copies the
    iterable [x], more than one argument is a [TypeError] (here [None]). *)
Definition py_list_star {A} (inputs : list (list A)) : option (list A) :=
  match inputs with
  | [] => Some []
  | [x] => Some x
  | _ => None
  end.

(** The [k]-th value of every group of a buffer. *)
Definition column {A} (k : nat) (groups : list (list A)) : list A :=
  omap (fun g => g !! k) groups.

(** The buffer cut into groups of [arity] values. *)
Fixpoint groups_of {A} (fuel arity : nat) (l : list A) : list (list A) :=
  match fuel with
  | O => []
  | S fuel' =>
      match l with
      | [] => []
      | _ => take arity l :: groups_of fuel' arity (drop arity l)
      end
  end.

Definition sumZ (l : list Z) : Z := foldr Z.add 0 l.

(** ** Exceptions

    The exceptions that end a call, by their class: the [assert] of line
    154 raises [AssertionError], [list( *inputs )] raises [TypeError], an
    index out of range raises [IndexError].  The reducer is not part of
    this file and may raise an exception of any class, one of these three
    included; line 155 catches nothing, so the caller of the reducer
    raises the very exception that the reducer raised.  [Err] stands for
    the classes not named here. *)
Inductive exn {Err : Type} : Type :=
| AssertionError
| TypeError
| IndexError
| OtherError (e : Err).

(** Modelled from the spec: [encoding.parallel.allreduce] is not part of
    this file; the spec describes the Reducer as returning as many values
    as it is given, where every group holds, at position [k], the sum of
    the [k]-th values of all groups.  It does not raise. *)
Definition allreduce_sum (arity : Z) (l : list Z)
  : @exn Empty_set + list Z :=
  let a := Z.to_nat arity in
  let groups := groups_of (length l) a l in
  inr (imap (fun i _ => sumZ (column (i mod a) groups)) l).

(** The Python literals [1e-5] and [0.1]: the nearest doubles. *)
Definition float_1e_5 : float := 0x1.4f8b588e368f1p-17%float.
Definition float_0_1 : float := 0x1.999999999999ap-4%float.

(** A reducer that raises, whatever it is given. *)
Definition allreduce_raising (arity : Z) (l : list Z) : @exn unit + list Z :=
  inl (OtherError tt).

Section Barrier.

(** [V] is the type of the contributed values (tensors in the program),
    [Err] the classes of exceptions other than the three above. *)
Context {V Err : Type}.

(** [encoding.parallel.allreduce], called as [allreduce(2, *self.list)]:
    its source is not part of this file; it is a parameter, a function of
    its arguments that returns the new buffer or raises an exception. *)
Variable allreduce : Z -> list V -> @exn Err + list V.

(** The fields of a [SharedTensor] object ([list_] is [self.list]). *)
Record SharedTensor : Type := mkSharedTensor {
  nGPUs : Z;
  list_ : list V;
  push_tasks : Z;
  reduce_tasks : Z
}.

(** [SharedTensor._clear] *)
Definition _clear (s : SharedTensor) : SharedTensor :=
  {| nGPUs := nGPUs s; list_ := []; push_tasks := nGPUs s;
     reduce_tasks := nGPUs s |}.

(** [SharedTensor.__init__] *)
Definition __init__ (n : Z) : SharedTensor :=
  _clear {| nGPUs := n; list_ := []; push_tasks := 0; reduce_tasks := 0 |}.

(** [SharedTensor.__len__] *)
Definition __len__ (s : SharedTensor) : Z := nGPUs s.

(** ** One call of [SharedTensor.__call__], block by block *)

Inductive wait_state : Type :=
| Entering   (* about to take the lock of the [with] block *)
| Sleeping   (* inside [wait()], not notified *)
| Woken.     (* notified, about to re-acquire the lock and test again *)

Inductive pc : Type :=
| Call (inputs : list (list V))          (* line 140 *)
| WaitPush (w : wait_state) (idx : Z)    (* lines 146-150 *)
| Pull (idx : Z)                         (* lines 152-158 *)
| WaitReduce (w : wait_state) (idx : Z)  (* lines 159-163 *)
| Read (idx : Z)                         (* line 165, [self.list[2*idx]] *)
| Read2 (idx : Z) (a : V)                (* line 165, [self.list[2*idx+1]] *)
| Returned (r : V * V)
| Raised (e : @exn Err).

Inductive event : Type :=
| EvPush (tid : nat) (idx : Z) (vals : list V)
    (* the thread extended the buffer by [vals] and computed [idx] *)
| EvReduce (tid : nat) (arity : Z) (buf : list V)
    (* the thread called [allreduce(arity, *buf)] *)
| EvDec (tid : nat).
    (* the thread decremented [reduce_tasks] *)

Record outcome : Type := mkOutcome {
  o_sh : SharedTensor;
  o_pc : pc;
  o_notify : bool;       (* [notify_all()] was called *)
  o_ev : list event
}.

Definition is_entering (w : wait_state) : bool :=
  match w with Entering => true | _ => false end.

(** The next atomic step of a thread at [p] on the shared object [s];
    [None] when the thread sleeps or has left the call. *)
Definition exec (tid : nat) (s : SharedTensor) (p : pc) : option outcome :=
  match p with
  | Call inputs =>
      let s1 := if push_tasks s =? 0 then _clear s else s in
      match py_list_star inputs with
      | None => Some (mkOutcome s1 (Raised TypeError) false [])
      | Some vals =>
          let l := list_ s1 ++ vals in
          let idx := nGPUs s1 - push_tasks s1 in
          Some (mkOutcome
                  (mkSharedTensor (nGPUs s1) l (push_tasks s1 - 1)
                                  (reduce_tasks s1))
                  (WaitPush Entering idx) false [EvPush tid idx vals])
      end
  | WaitPush Sleeping _ => None
  | WaitPush w idx =>
      if push_tasks s =? 0
      then Some (mkOutcome s (Pull idx) (is_entering w) [])
      else Some (mkOutcome s (WaitPush Sleeping idx) false [])
  | Pull idx =>
      if reduce_tasks s =? nGPUs s then
        if Z.of_nat (length (list_ s)) =? 2 * nGPUs s then
          match allreduce 2 (list_ s) with
          | inr out =>
              Some (mkOutcome
                      (mkSharedTensor (nGPUs s) out (push_tasks s)
                                      (reduce_tasks s - 1))
                      (WaitReduce Entering idx) false
                      [EvReduce tid 2 (list_ s); EvDec tid])
          | inl e =>
              Some (mkOutcome s (Raised e) false [EvReduce tid 2 (list_ s)])
          end
        else Some (mkOutcome s (Raised AssertionError) false [])
      else
        Some (mkOutcome
                (mkSharedTensor (nGPUs s) (list_ s) (push_tasks s)
                                (reduce_tasks s - 1))
                (WaitReduce Entering idx) false [EvDec tid])
  | WaitReduce Sleeping _ => None
  | WaitReduce w idx =>
      if reduce_tasks s =? 0
      then Some (mkOutcome s (Read idx) (is_entering w) [])
      else Some (mkOutcome s (WaitReduce Sleeping idx) false [])
  | Read idx =>
      match py_getitem (list_ s) (2 * idx) with
      | Some a => Some (mkOutcome s (Read2 idx a) false [])
      | None => Some (mkOutcome s (Raised IndexError) false [])
      end
  | Read2 idx a =>
      match py_getitem (list_ s) (2 * idx + 1) with
      | Some b => Some (mkOutcome s (Returned (a, b)) false [])
      | None => Some (mkOutcome s (Raised IndexError) false [])
      end
  | Returned _ => None
  | Raised _ => None
  end.

(** ** Threads sharing one object *)

Record config : Type := mkConfig {
  sh : SharedTensor;
  thr : list pc;
  log : list event
}.

(** The effect of [notify_all()] on a thread. *)
Definition wake (p : pc) : pc :=
  match p with
  | WaitPush Sleeping idx => WaitPush Woken idx
  | WaitReduce Sleeping idx => WaitReduce Woken idx
  | _ => p
  end.

Definition notify (b : bool) (l : list pc) : list pc :=
  if b then wake <$> l else l.

(** Thread [tid] takes its next step. *)
Definition step (tid : nat) (c : config) : option config :=
  match thr c !! tid with
  | Some p =>
      match exec tid (sh c) p with
      | Some o =>
          Some {| sh := o_sh o;
                  thr := notify (o_notify o) (<[tid := o_pc o]> (thr c));
                  log := log c ++ o_ev o |}
      | None => None
      end
  | None => None
  end.

(** What the callers do between calls: a new thread calls the object, or
    a thread whose call has returned calls it again. *)
Inductive action : Type :=
| Run (tid : nat)
| Spawn (inputs : list (list V))
| Invoke (tid : nat) (inputs : list (list V)).

Definition act (a : action) (c : config) : option config :=
  match a with
  | Run tid => step tid c
  | Spawn inputs =>
      Some {| sh := sh c; thr := thr c ++ [Call inputs]; log := log c |}
  | Invoke tid inputs =>
      match thr c !! tid with
      | Some (Returned _) =>
          Some {| sh := sh c; thr := <[tid := Call inputs]> (thr c);
                  log := log c |}
      | _ => None
      end
  end.

(** A schedule is a list of actions; an action that is not enabled is
    skipped. *)
Fixpoint play (sched : list action) (c : config) : config :=
  match sched with
  | [] => c
  | a :: sched' =>
      match act a c with
      | Some c' => play sched' c'
      | None => play sched' c
      end
  end.

Definition run (sched : list nat) (c : config) : config :=
  play (Run <$> sched) c.

(** [steps c c']: the threads of [c] reach [c'] by steps of the calls in
    progress. *)
Inductive steps (c : config) : config -> Prop :=
| steps_refl : steps c c
| steps_step c1 c2 tid :
    steps c c1 -> step tid c1 = Some c2 -> steps c c2.

(** A round: one call per thread, [cs] the contribution of each. *)
Definition start (s : SharedTensor) (cs : list (list V)) : config :=
  {| sh := s; thr := (fun x => Call [x]) <$> cs; log := [] |}.

(** The object is ready for a round: freshly built, or the arrivals of
    the round before are used up. *)
Definition round_start (s : SharedTensor) : Prop :=
  s = __init__ (nGPUs s) \/ push_tasks s = 0.

Definition finished (p : pc) : bool :=
  match p with Returned _ | Raised _ => true | _ => false end.

Definition sleeping (p : pc) : bool :=
  match p with
  | WaitPush Sleeping _ | WaitReduce Sleeping _ => true
  | _ => false
  end.

(** Projections of the log. *)
Definition arrivals (l : list event) : list (nat * Z * list V) :=
  omap (fun e => match e with EvPush t i v => Some (t, i, v) | _ => None end) l.

Definition reducer_calls (l : list event) : list (nat * Z * list V) :=
  omap (fun e => match e with EvReduce t a b => Some (t, a, b) | _ => None end) l.

Definition departures (l : list event) : list nat :=
  omap (fun e => match e with EvDec t => Some t | _ => None end) l.


(** ** The invariant of one round

    [cs] are the contributions of the threads of the round, thread [t]
    calling the object with [cs !! t]; the object is built for
    [length cs] devices. *)

Definition tids (l : list event) : list nat := (arrivals l).*1.*1.
Definition tokens (l : list event) : list Z := (arrivals l).*1.*2.

(** The contributions in the order of arrival. *)
Definition buffer (l : list event) : list V := concat ((arrivals l).*2).

(** What the first thread to pull gets on the buffer [b]. *)
Definition reduced (N : Z) (b : list V) : @exn Err + list V :=
  if Z.of_nat (length b) =? 2 * N then allreduce 2 b
  else inl AssertionError.

(** What a round asks of the reducer.  [reducer_returns cs]: it does not
    raise on the contributions [cs], in whatever order they arrive.
    [reducer_raises e cs]: it raises [e] on them.  [reducer_keeps_length]:
    it returns as many values as it is given.  [reducer_combines comb n]:
    for [n] groups of two values, every group of the result holds, at
    position [k], the combination [comb] of the [k]-th values of all
    groups. *)
Definition reducer_returns (cs : list (list V)) : Prop :=
  forall groups, groups ≡ₚ cs ->
    exists out, allreduce 2 (concat groups) = inr out.

Definition reducer_raises (e : @exn Err) (cs : list (list V)) : Prop :=
  forall groups, groups ≡ₚ cs -> allreduce 2 (concat groups) = inl e.

Definition reducer_keeps_length : Prop :=
  forall a b out, allreduce a b = inr out -> length out = length b.

Definition reducer_combines (comb : list V -> V) (n : nat) : Prop :=
  forall groups : list (list V),
    length groups = n -> Forall (fun g => length g = 2%nat) groups ->
    exists out, allreduce 2 (concat groups) = inr out /\
      length out = (2 * n)%nat /\
      forall g k, (g < n)%nat -> (k < 2)%nat ->
        out !! (2 * g + k)%nat = Some (comb (column k groups)).

(** The combination does not depend on the order of the values. *)
Definition symmetric (comb : list V -> V) : Prop :=
  forall l l', l ≡ₚ l' -> comb l = comb l'.

Definition arrived (l : list event) (t : nat) (idx : Z) : Prop :=
  exists v, (t, idx, v) ∈ arrivals l.

Definition slice_of (s : SharedTensor) (idx : Z) : option V * option V :=
  (py_getitem (list_ s) (2 * idx), py_getitem (list_ s) (2 * idx + 1)).

(** What the [return] of line 165 gives on the two values read. *)
Definition outcome_of_slice (sl : option V * option V) : pc :=
  match sl with
  | (Some a, Some b) => Returned (a, b)
  | _ => Raised IndexError
  end.

Section Round.

Variable cs : list (list V).

Definition thread_inv (s : SharedTensor) (l : list event) (t : nat) (p : pc)
  : Prop :=
  match p with
  | Call inputs =>
      (exists x, cs !! t = Some x /\ inputs = [x]) /\ t ∉ tids l
  | WaitPush _ idx =>
      arrived l t idx /\ t ∉ departures l
  | Pull idx =>
      arrived l t idx /\ (t ∉ departures l) /\ push_tasks s = 0
  | WaitReduce _ idx =>
      arrived l t idx /\ t ∈ departures l
  | Read idx =>
      arrived l t idx /\ t ∈ departures l /\ reduce_tasks s = 0
  | Read2 idx a =>
      arrived l t idx /\ t ∈ departures l /\ reduce_tasks s = 0 /\
      py_getitem (list_ s) (2 * idx) = Some a
  | Returned r =>
      exists idx, arrived l t idx /\ t ∈ departures l /\ reduce_tasks s = 0 /\
        slice_of s idx = (Some r.1, Some r.2)
  | Raised e =>
      ((t ∉ departures l) /\ t ∈ tids l /\ push_tasks s = 0 /\
       reduced (Z.of_nat (length cs)) (buffer l) = inl e) \/
      (t ∈ departures l /\ reduce_tasks s = 0 /\ e = IndexError /\
       exists idx, arrived l t idx /\
         (py_getitem (list_ s) (2 * idx) = None \/
          py_getitem (list_ s) (2 * idx + 1) = None))
  end.

(** The part of the invariant on the shared object and the log. *)
Record InvS (s : SharedTensor) (l : list event) : Prop := {
  inv_n : nGPUs s = Z.of_nat (length cs);
  inv_tok : tokens l = seqZ 0 (Z.of_nat (length (arrivals l)));
  inv_vals : forall t i v, (t, i, v) ∈ arrivals l -> cs !! t = Some v;
  inv_ndA : NoDup (tids l);
  inv_ndD : NoDup (departures l);
  inv_Dlt : forall t, t ∈ departures l -> (t < length cs)%nat;
  inv_fresh : arrivals l = [] ->
    round_start s /\ departures l = [] /\ reducer_calls l = [];
  inv_push : arrivals l <> [] ->
    push_tasks s = Z.of_nat (length cs) - Z.of_nat (length (arrivals l));
  inv_pre : arrivals l <> [] -> departures l = [] ->
    list_ s = buffer l /\ reduce_tasks s = Z.of_nat (length cs);
  inv_post : departures l <> [] ->
    exists out, reduced (Z.of_nat (length cs)) (buffer l) = inr out /\
      list_ s = out /\ push_tasks s = 0 /\
      reduce_tasks s =
        Z.of_nat (length cs) - Z.of_nat (length (departures l)) /\
      (reducer_calls l).*1.*1 = take 1 (departures l);
  inv_calls : forall t a b, (t, a, b) ∈ reducer_calls l ->
    a = 2 /\ b = buffer l /\ push_tasks s = 0 /\ arrivals l <> [] /\
    Z.of_nat (length b) = 2 * Z.of_nat (length cs);
  inv_calls0 : departures l = [] ->
    forall out, reduced (Z.of_nat (length cs)) (buffer l) = inr out ->
    reducer_calls l = []
}.

(** The part on the threads: a sleeping thread will be notified. *)
Record Inv (c : config) : Prop := {
  inv_S : InvS (sh c) (log c);
  inv_len : length (thr c) = length cs;
  inv_thr : forall t p, thr c !! t = Some p -> thread_inv (sh c) (log c) t p;
  inv_sleepP : push_tasks (sh c) = 0 ->
    forall t idx, thr c !! t = Some (WaitPush Sleeping idx) ->
    exists t' idx', thr c !! t' = Some (WaitPush Entering idx');
  inv_sleepR : reduce_tasks (sh c) = 0 ->
    forall t idx, thr c !! t = Some (WaitReduce Sleeping idx) ->
    exists t' idx', thr c !! t' = Some (WaitReduce Entering idx')
}.

End Round.

(** ** A measure that every step decreases *)

(** The blocks that a thread still has to leave. *)
Definition major (p : pc) : nat :=
  match p with
  | Call _ => 7
  | WaitPush Entering _ => 6
  | WaitPush _ _ => 5
  | Pull _ => 5
  | WaitReduce Entering _ => 4
  | WaitReduce _ _ => 3
  | Read _ => 3
  | Read2 _ _ => 2
  | Returned _ | Raised _ => 0
  end%nat.

(** A woken thread has a test of its loop condition to run. *)
Definition minor (p : pc) : nat :=
  match p with
  | WaitPush Woken _ | WaitReduce Woken _ => 1
  | _ => 0
  end%nat.

Definition measure (c : config) : nat :=
  (S (length (thr c)) * sum_list (major <$> thr c)
   + sum_list (minor <$> thr c))%nat.

Definition all_finished (c : config) : Prop :=
  forall t p, thr c !! t = Some p -> finished p = true.


(** ** The buffer during the push phase, for any callers *)

(** The arity that the code is written for: lines 154, 155 and 165. *)
Definition arity : Z := 2.





(** The object when it has just been built, before any call. *)
Definition built (n : Z) : config :=
  {| sh := __init__ n; thr := []; log := [] |}.

(** ** The module [_SyncBatchNorm]

    [torch.nn.modules.batchnorm._BatchNorm.__init__] belongs to PyTorch:
    it stores its arguments in the attributes of the same names.  [K] is
    the type of the other keyword arguments. *)
Context {K : Type}.

Record _BatchNorm : Type := mk_BatchNorm {
  num_features : Z;
  eps : float;
  momentum : float;
  kwargs : K
}.

Record _SyncBatchNorm : Type := mk_SyncBatchNorm {
  super : _BatchNorm;
  sharedT : SharedTensor
}.

(** [_SyncBatchNorm.__init__]; [device_count] is the value of
    [torch.cuda.device_count()], and an argument that the caller leaves
    out is [None]. *)
Definition _SyncBatchNorm__init__ (device_count : Z) (num_features : Z)
    (eps momentum : option float) (kw : K) : _SyncBatchNorm :=
  let eps := default float_1e_5 eps in
  let momentum := default float_0_1 momentum in
  {| super := mk_BatchNorm num_features float_1e_5 float_0_1 kw;
     sharedT := __init__ device_count |}.

(** ** Basic facts *)

Lemma arrivals_app l1 l2 : arrivals (l1 ++ l2) = arrivals l1 ++ arrivals l2.
Proof. apply omap_app. Qed.

Lemma departures_app l1 l2 :
  departures (l1 ++ l2) = departures l1 ++ departures l2.
Proof. apply omap_app. Qed.

Lemma reducer_calls_app l1 l2 :
  reducer_calls (l1 ++ l2) = reducer_calls l1 ++ reducer_calls l2.
Proof. apply omap_app. Qed.

Lemma tids_app l1 l2 : tids (l1 ++ l2) = tids l1 ++ tids l2.
Proof. unfold tids. by rewrite arrivals_app, !fmap_app. Qed.

Lemma buffer_app l1 l2 : buffer (l1 ++ l2) = buffer l1 ++ buffer l2.
Proof. unfold buffer. by rewrite arrivals_app, fmap_app, concat_app. Qed.

Lemma arrived_tids l t idx : arrived l t idx -> t ∈ tids l.
Proof.
  intros [v Hv]. unfold tids. apply list_elem_of_fmap. exists (t, idx).
  split; [done|]. apply list_elem_of_fmap. by exists (t, idx, v).
Qed.

Lemma arrived_app l1 l2 t idx : arrived l1 t idx -> arrived (l1 ++ l2) t idx.
Proof.
  intros [v Hv]. exists v. rewrite arrivals_app. apply elem_of_app. by left.
Qed.

Lemma arrived_nonempty l t idx : arrived l t idx -> arrivals l <> [].
Proof. intros [v Hv] E. rewrite E in Hv. by apply elem_of_nil in Hv. Qed.

Lemma elem_nonempty {A} (x : A) (l : list A) : x ∈ l -> l <> [].
Proof. intros H E. rewrite E in H. by apply elem_of_nil in H. Qed.

Lemma wake_not_sleeping p : sleeping (wake p) = false.
Proof. by destruct p as [| [] ? | | [] ? | | | |]. Qed.

Lemma wake_awake p : sleeping p = false -> wake p = p.
Proof. by destruct p as [| [] ? | | [] ? | | | |]. Qed.

Lemma major_wake p : major (wake p) = major p.
Proof. by destruct p as [| [] ? | | [] ? | | | |]. Qed.

Lemma minor_le p : (minor p <= 1)%nat.
Proof. destruct p as [| [] ? | | [] ? | | | |]; simpl; lia. Qed.

(** A thread that notifies does not go to sleep in the same step. *)
Lemma exec_notify tid s p o :
  exec tid s p = Some o -> o_notify o = true -> sleeping (o_pc o) = false.
Proof.
  destruct p as [| [] ? | | [] ? | | | |]; simpl; intros;
    repeat case_match; simplify_eq/=; done.
Qed.

Lemma exec_enabled tid s p :
  sleeping p = false -> finished p = false -> is_Some (exec tid s p).
Proof.
  destruct p as [| [] ? | | [] ? | | | |]; simpl; intros; try done;
    repeat case_match; eauto.
Qed.

Lemma step_inv tid c c' :
  step tid c = Some c' ->
  exists p o, thr c !! tid = Some p /\ exec tid (sh c) p = Some o /\
    c' = {| sh := o_sh o;
            thr := notify (o_notify o) (<[tid := o_pc o]> (thr c));
            log := log c ++ o_ev o |}.
Proof.
  unfold step. intros H. destruct (thr c !! tid) as [p|] eqn:Hp; [|done].
  destruct (exec tid (sh c) p) as [o|] eqn:Ho; [|done].
  exists p, o. by simplify_eq.
Qed.

Lemma lookup_notify b l t :
  notify b l !! t = (if b then wake else id) <$> l !! t.
Proof.
  destruct b; simpl; [apply list_lookup_fmap|]. by destruct (l !! t).
Qed.

Lemma length_notify b l : length (notify b l) = length l.
Proof. destruct b; simpl; [apply length_fmap|done]. Qed.

(** The threads after a step of [tid] from [p] with outcome [o]. *)
Lemma lookup_after tid (l : list pc) p o t q :
  l !! tid = Some p ->
  (o_notify o = true -> sleeping (o_pc o) = false) ->
  notify (o_notify o) (<[tid := o_pc o]> l) !! t = Some q ->
  (t = tid /\ q = o_pc o) \/
  (t <> tid /\ exists q0, l !! t = Some q0 /\
     q = if o_notify o then wake q0 else q0).
Proof.
  intros Hp Hn. rewrite lookup_notify. intros Hq.
  destruct (decide (t = tid)) as [->|Hne].
  - left. split; [done|].
    rewrite list_lookup_insert_eq in Hq by (by eapply lookup_lt_Some).
    simpl in Hq. destruct (o_notify o); simplify_eq/=; [|done].
    by rewrite wake_awake by auto.
  - right. split; [done|]. rewrite list_lookup_insert_ne in Hq by done.
    destruct (l !! t) as [q0|]; [|done]. exists q0. split; [done|].
    simpl in Hq. by destruct (o_notify o); simplify_eq/=.
Qed.

(** Distinct numbers below [n]: there are at most [n] of them, and when
    there are fewer one is missing. *)
Lemma pigeon_length (l : list nat) (n : nat) :
  NoDup l -> (forall y, y ∈ l -> (y < n)%nat) -> (length l <= n)%nat.
Proof.
  intros Hnd Hlt. rewrite <- (length_seq n 0%nat) at 1. apply submseteq_length.
  apply NoDup_submseteq; [done|]. intros y Hy. apply elem_of_seq.
  specialize (Hlt y Hy). lia.
Qed.

Lemma pigeon_fresh (l : list nat) (n x : nat) :
  NoDup l -> (forall y, y ∈ l -> (y < n)%nat) -> (x < n)%nat -> x ∉ l ->
  (length l < n)%nat.
Proof.
  intros Hnd Hlt Hx Hnin.
  assert (length (x :: l) <= n)%nat as H; [|simpl in H; lia].
  apply pigeon_length.
  - by apply NoDup_cons.
  - intros y [->|Hy]%elem_of_cons; auto.
Qed.

Lemma pigeon_missing (l : list nat) (n : nat) :
  NoDup l -> (length l < n)%nat -> exists x, (x < n)%nat /\ x ∉ l.
Proof.
  intros Hnd Hlen.
  destruct (decide (Exists (fun x => x ∉ l) (seq 0 n))) as [He|Hne].
  - apply Exists_exists in He as (x & Hx & Hnin). exists x. split; [|done].
    apply elem_of_seq in Hx. lia.
  - exfalso. apply not_Exists_Forall in Hne; [|intros x; apply _].
    assert (length (seq 0 n) <= length l)%nat as H.
    { apply submseteq_length, NoDup_submseteq; [apply NoDup_seq|].
      intros x Hx. rewrite Forall_forall in Hne. specialize (Hne x Hx).
      simpl in Hne. destruct (decide (x ∈ l)); [done|]. by destruct Hne. }
    rewrite length_seq in H. lia.
Qed.


(** ** Every step decreases the measure *)

Lemma exec_measure tid s p o :
  exec tid s p = Some o ->
  (major (o_pc o) < major p)%nat \/
  (major (o_pc o) = major p /\ o_notify o = false /\
   (minor (o_pc o) < minor p)%nat).
Proof.
  destruct p as [| [] ? | | [] ? | | | |]; simpl; intros;
    repeat case_match; simplify_eq/=; try done; lia.
Qed.

Lemma sum_insert (f : pc -> nat) (l : list pc) i p q :
  l !! i = Some p ->
  (sum_list (f <$> <[i:=q]> l) + f p = sum_list (f <$> l) + f q)%nat.
Proof.
  revert i. induction l as [|x l IH]; intros [|i] Hi; simplify_eq/=.
  - lia.
  - specialize (IH _ Hi).
    change (f x + sum_list (f <$> <[i:=q]> l) + f p
            = f x + sum_list (f <$> l) + f q)%nat.
    lia.
Qed.

Lemma sum_minor_le (l : list pc) : (sum_list (minor <$> l) <= length l)%nat.
Proof.
  induction l as [|x l IH]; [simpl; lia|].
  change (minor x + sum_list (minor <$> l) <= S (length l))%nat.
  pose proof (minor_le x). lia.
Qed.

Lemma sum_major_notify b (l : list pc) :
  sum_list (major <$> notify b l) = sum_list (major <$> l).
Proof.
  destruct b; simpl; [|done].
  induction l as [|x l IH]; [done|].
  change (major (wake x) + sum_list (major <$> (wake <$> l))
          = major x + sum_list (major <$> l))%nat.
  by rewrite major_wake, IH.
Qed.

Lemma step_measure tid c c' :
  step tid c = Some c' -> (measure c' < measure c)%nat.
Proof.
  intros (p & o & Hp & Ho & ->)%step_inv. unfold measure. simpl.
  rewrite length_notify, length_insert, sum_major_notify.
  pose proof (sum_insert major _ _ _ (o_pc o) Hp) as HM.
  pose proof (sum_insert minor _ _ _ (o_pc o) Hp) as Hm.
  pose proof (sum_minor_le (notify (o_notify o) (<[tid:=o_pc o]> (thr c))))
    as Hle.
  rewrite length_notify, length_insert in Hle.
  destruct (exec_measure _ _ _ _ Ho) as [Hlt|(Heq & Hn & Hlt)].
  - nia.
  - rewrite Hn in *. simpl in *. nia.
Qed.

Lemma steps_cons c c1 c2 tid :
  step tid c = Some c1 -> steps c1 c2 -> steps c c2.
Proof.
  intros Hs. induction 1.
  - eapply steps_step; [apply steps_refl|done].
  - eapply steps_step; eauto.
Qed.

Lemma steps_trans c c1 c2 : steps c c1 -> steps c1 c2 -> steps c c2.
Proof. intros H1. induction 1; eauto using steps_step. Qed.

Lemma steps_measure c c' : steps c c' -> (measure c' <= measure c)%nat.
Proof.
  induction 1; [lia|].
  pose proof (step_measure _ _ _ H0). lia.
Qed.

(** A schedule is a run of the threads. *)
Lemma steps_run sched c : steps c (run sched c).
Proof.
  unfold run. revert c. induction sched as [|t sched IH]; intros c; simpl.
  - apply steps_refl.
  - destruct (step t c) as [c'|] eqn:Hs; [|apply IH].
    eapply steps_cons; eauto.
Qed.

(** ** The invariant is kept by every step *)

Section RoundFacts.

Variable cs : list (list V).

Lemma length_tids l : length (tids l) = length (arrivals l).
Proof. unfold tids. by rewrite !length_fmap. Qed.

Lemma tids_arrived l t : t ∈ tids l -> exists idx, arrived l t idx.
Proof.
  unfold tids. intros ([t' i] & -> & ([[t'' i'] v] & [= <- <-] & H)%list_elem_of_fmap)%list_elem_of_fmap.
  exists i, v. done.
Qed.

Lemma tids_lt s l t : InvS cs s l -> t ∈ tids l -> (t < length cs)%nat.
Proof.
  intros HS (idx & v & Hv)%tids_arrived.
  eapply lookup_lt_Some, inv_vals; eauto.
Qed.

Lemma not_arrived_room s l t :
  InvS cs s l -> (t < length cs)%nat -> t ∉ tids l ->
  (length (arrivals l) < length cs)%nat.
Proof.
  intros HS Ht Hn. rewrite <- length_tids.
  eapply pigeon_fresh; eauto using inv_ndA. intros y. by apply (tids_lt s).
Qed.

Lemma not_departed_room s l t :
  InvS cs s l -> (t < length cs)%nat -> t ∉ departures l ->
  (length (departures l) < length cs)%nat.
Proof.
  intros HS Ht Hn. eapply pigeon_fresh; eauto using inv_ndD, inv_Dlt.
Qed.

Lemma arrivals_le s l :
  InvS cs s l -> (length (arrivals l) <= length cs)%nat.
Proof.
  intros HS. rewrite <- length_tids. apply pigeon_length.
  - by eapply inv_ndA.
  - intros y. by apply (tids_lt s).
Qed.

Lemma departures_le s l :
  InvS cs s l -> (length (departures l) <= length cs)%nat.
Proof.
  intros HS. apply pigeon_length; eauto using inv_ndD, inv_Dlt.
Qed.

(** While a thread has not arrived, the push phase is open. *)
Definition pushing (s : SharedTensor) (l : list event) : Prop :=
  arrivals l = [] \/ push_tasks s <> 0.

Lemma not_arrived_pushing s l t :
  InvS cs s l -> (t < length cs)%nat -> t ∉ tids l -> pushing s l.
Proof.
  intros HS Ht Hn. pose proof (not_arrived_room _ _ _ HS Ht Hn) as Hlen.
  destruct (arrivals l) eqn:E; [by left|right].
  rewrite (inv_push _ _ _ HS) by (by rewrite E). rewrite E in *. lia.
Qed.

Lemma pushing_pre s l :
  InvS cs s l -> pushing s l ->
  departures l = [] /\ reducer_calls l = [] /\
  let s1 := if push_tasks s =? 0 then _clear s else s in
  nGPUs s1 = Z.of_nat (length cs) /\ list_ s1 = buffer l /\
  push_tasks s1 = Z.of_nat (length cs) - Z.of_nat (length (arrivals l)) /\
  reduce_tasks s1 = Z.of_nat (length cs).
Proof.
  intros HS Hp. pose proof (inv_n _ _ _ HS) as Hn.
  destruct (decide (arrivals l = [])) as [E|E].
  - destruct (inv_fresh _ _ _ HS E) as (Hr & HD & HR).
    split; [done|]. split; [done|]. unfold buffer. rewrite E. simpl.
    destruct (push_tasks s =? 0) eqn:Hz; simpl; [repeat split; lia|].
    destruct Hr as [Hr|Hr]; [|lia]. rewrite Hr. simpl. repeat split; lia.
  - destruct Hp as [Hp|Hp]; [done|].
    assert (departures l = []) as HD.
    { destruct (decide (departures l = [])) as [|HD]; [done|].
      destruct (inv_post _ _ _ HS HD) as (? & ? & ? & ? & ?). done. }
    assert (reducer_calls l = []) as HR.
    { destruct (reducer_calls l) as [|[[t a] b] r] eqn:ER; [done|].
      destruct (inv_calls _ _ _ HS t a b) as (? & ? & ? & ? & ?); [|done].
      rewrite ER. apply elem_of_cons. by left. }
    destruct (inv_pre _ _ _ HS E HD) as [Hl Hr].
    pose proof (inv_push _ _ _ HS E).
    replace (push_tasks s =? 0) with false by (symmetry; by apply Z.eqb_neq).
    done.
Qed.

(** During the push phase every thread is before its pull. *)
Lemma pushing_threads s l t p :
  InvS cs s l -> pushing s l -> thread_inv cs s l t p ->
  match p with Call _ | WaitPush _ _ => True | _ => False end.
Proof.
  intros HS Hp Ht. destruct (pushing_pre _ _ HS Hp) as (HD & _ & _).
  assert (forall idx, arrived l t idx -> push_tasks s <> 0) as Ha.
  { intros idx Hi. destruct Hp as [Hp|Hp]; [|done].
    by apply arrived_nonempty in Hi. }
  destruct p; simpl in Ht; try done; rewrite HD in Ht.
  - destruct Ht as (Hi & _ & Hz). by apply Ha in Hi.
  - destruct Ht as (_ & Hi). by apply elem_of_nil in Hi.
  - destruct Ht as (_ & Hi & _). by apply elem_of_nil in Hi.
  - destruct Ht as (_ & Hi & _). by apply elem_of_nil in Hi.
  - destruct Ht as (idx & _ & Hi & _). by apply elem_of_nil in Hi.
  - destruct Ht as [(_ & Hi & Hz & _)|(Hi & _)].
    + apply tids_arrived in Hi as [idx Hi]. by apply Ha in Hi.
    + by apply elem_of_nil in Hi.
Qed.

(** While a thread has not pulled, nobody has left the reduce phase. *)
Lemma not_departed_pulling s l t :
  InvS cs s l -> (t < length cs)%nat -> t ∉ departures l ->
  departures l = [] \/ reduce_tasks s <> 0.
Proof.
  intros HS Ht Hn. pose proof (not_departed_room _ _ _ HS Ht Hn) as Hlen.
  destruct (decide (departures l = [])) as [|HD]; [by left|right].
  destruct (inv_post _ _ _ HS HD) as (? & ? & ? & ? & Hr & ?). lia.
Qed.

Lemma thread_inv_ext s l l' t p :
  arrivals l' = arrivals l -> departures l' = departures l ->
  thread_inv cs s l t p -> thread_inv cs s l' t p.
Proof.
  intros HA HD. unfold thread_inv, arrived, tids, buffer.
  by rewrite HA, HD.
Qed.

Lemma thread_inv_wake s l t p :
  thread_inv cs s l t p -> thread_inv cs s l t (wake p).
Proof. by destruct p as [| [] ? | | [] ? | | | |]. Qed.


(** *** The shared object and the log *)

Lemma InvS_push s l t x :
  InvS cs s l -> cs !! t = Some x -> t ∉ tids l ->
  let s1 := if push_tasks s =? 0 then _clear s else s in
  let idx := nGPUs s1 - push_tasks s1 in
  idx = Z.of_nat (length (arrivals l)) /\
  InvS cs (mkSharedTensor (nGPUs s1) (list_ s1 ++ x) (push_tasks s1 - 1)
                          (reduce_tasks s1))
       (l ++ [EvPush t idx x]).
Proof.
  intros HS Hx Hn s1 idx.
  assert (t < length cs)%nat as Hlt by (by eapply lookup_lt_Some).
  pose proof (not_arrived_pushing _ _ _ HS Hlt Hn) as Hp.
  destruct (pushing_pre _ _ HS Hp) as (HD & HR & H1 & H2 & H3 & H4).
  fold s1 in H1, H2, H3, H4.
  assert (idx = Z.of_nat (length (arrivals l))) as Hidx by (unfold idx; lia).
  split; [done|].
  assert (arrivals (l ++ [EvPush t idx x]) = arrivals l ++ [(t, idx, x)])
    as EA by (by rewrite arrivals_app).
  assert (departures (l ++ [EvPush t idx x]) = []) as ED
    by (by rewrite departures_app, HD).
  assert (reducer_calls (l ++ [EvPush t idx x]) = []) as ER
    by (by rewrite reducer_calls_app, HR).
  assert (arrivals (l ++ [EvPush t idx x]) <> []) as EN.
  { rewrite EA. by destruct (arrivals l). }
  constructor; simpl.
  - done.
  - unfold tokens. rewrite EA, !fmap_app, length_app. simpl.
    replace (Z.of_nat (length (arrivals l) + 1))
      with (Z.of_nat (S (length (arrivals l)))) by lia.
    rewrite seqZ_S. f_equal; [apply (inv_tok _ _ _ HS)|].
    by rewrite Hidx, Z.add_0_l.
  - intros t' i v. rewrite EA. intros [H|H]%elem_of_app.
    + by eapply inv_vals.
    + apply list_elem_of_singleton in H. by simplify_eq.
  - rewrite tids_app. apply NoDup_app. split; [by eapply inv_ndA|].
    split; [|apply NoDup_singleton].
    intros y Hy Hy'. apply list_elem_of_singleton in Hy'. by subst.
  - rewrite ED. apply NoDup_nil_2.
  - rewrite ED. intros y Hy. by apply elem_of_nil in Hy.
  - done.
  - intros _. rewrite EA, length_app. simpl. lia.
  - intros _ _. split; [|done]. rewrite buffer_app, H2. f_equal.
    unfold buffer. simpl. by rewrite app_nil_r.
  - by rewrite ED.
  - rewrite ER. intros ? ? ? H. by apply elem_of_nil in H.
  - done.
Qed.

(** The thread that finds [reduce_tasks] at its full value is the first
    to pull, and it sees the contributions in the order of arrival. *)
Lemma pull_first s l t idx :
  InvS cs s l -> arrived l t idx -> reduce_tasks s = nGPUs s ->
  departures l = [] /\ list_ s = buffer l.
Proof.
  intros HS Ha Hr. pose proof (inv_n _ _ _ HS) as Hn.
  assert (departures l = []) as HD.
  { destruct (decide (departures l = [])) as [|HD]; [done|].
    destruct (inv_post _ _ _ HS HD) as (? & ? & ? & ? & Hr' & ?).
    destruct (departures l); [done|]. simpl in Hr'. lia. }
  split; [done|]. eapply inv_pre; eauto using arrived_nonempty.
Qed.

Lemma pull_later s l t idx :
  InvS cs s l -> arrived l t idx -> reduce_tasks s <> nGPUs s ->
  departures l <> [].
Proof.
  intros HS Ha Hr HD. pose proof (inv_n _ _ _ HS) as Hn.
  destruct (inv_pre _ _ _ HS) as [? ?]; eauto using arrived_nonempty. lia.
Qed.

Lemma InvS_reduce s l t idx out :
  InvS cs s l -> arrived l t idx -> t ∉ departures l -> push_tasks s = 0 ->
  reduce_tasks s = nGPUs s ->
  Z.of_nat (length (list_ s)) = 2 * nGPUs s ->
  allreduce 2 (list_ s) = inr out ->
  InvS cs (mkSharedTensor (nGPUs s) out (push_tasks s) (reduce_tasks s - 1))
       (l ++ [EvReduce t 2 (list_ s); EvDec t]).
Proof.
  intros HS Ha Hn Hp Hr Hlen Hred.
  pose proof (inv_n _ _ _ HS) as HN.
  destruct (pull_first _ _ _ _ HS Ha Hr) as [HD Hl].
  pose proof (arrived_nonempty _ _ _ Ha) as HA.
  assert (reduced (Z.of_nat (length cs)) (buffer l) = inr out) as Hout.
  { unfold reduced. rewrite <- Hl, <- HN.
    replace (_ =? _) with true by (symmetry; by apply Z.eqb_eq).
    by rewrite Hred. }
  pose proof (inv_calls0 _ _ _ HS HD _ Hout) as HR.
  set (l' := l ++ _).
  assert (arrivals l' = arrivals l) as EA
    by (unfold l'; rewrite arrivals_app; apply app_nil_r).
  assert (departures l' = [t]) as ED
    by (unfold l'; by rewrite departures_app, HD).
  assert (reducer_calls l' = [(t, 2, list_ s)]) as ER
    by (unfold l'; by rewrite reducer_calls_app, HR).
  assert (buffer l' = buffer l) as EB by (unfold buffer; by rewrite EA).
  constructor; simpl; unfold tokens, tids; rewrite ?EA, ?ED, ?ER, ?EB;
    try (by destruct HS).
  - apply NoDup_singleton.
  - intros y ->%list_elem_of_singleton. eapply tids_lt; eauto.
    by eapply arrived_tids.
  - intros _. exists out. simpl. repeat split; try done. lia.
  - intros t' a b [= -> -> ->]%list_elem_of_singleton.
    repeat split; try done. lia.
Qed.

Lemma InvS_reduce_fail s l t idx e :
  InvS cs s l -> arrived l t idx -> t ∉ departures l -> push_tasks s = 0 ->
  reduce_tasks s = nGPUs s ->
  Z.of_nat (length (list_ s)) = 2 * nGPUs s ->
  allreduce 2 (list_ s) = inl e ->
  reduced (Z.of_nat (length cs)) (buffer l) = inl e /\
  InvS cs s (l ++ [EvReduce t 2 (list_ s)]).
Proof.
  intros HS Ha Hn Hp Hr Hlen Hred.
  pose proof (inv_n _ _ _ HS) as HN.
  destruct (pull_first _ _ _ _ HS Ha Hr) as [HD Hl].
  pose proof (arrived_nonempty _ _ _ Ha) as HA.
  assert (reduced (Z.of_nat (length cs)) (buffer l) = inl e)
    as Hout.
  { unfold reduced. rewrite <- Hl, <- HN.
    replace (_ =? _) with true by (symmetry; by apply Z.eqb_eq).
    by rewrite Hred. }
  split; [done|].
  set (l' := l ++ _).
  assert (arrivals l' = arrivals l) as EA
    by (unfold l'; rewrite arrivals_app; apply app_nil_r).
  assert (departures l' = departures l) as ED
    by (unfold l'; rewrite departures_app; apply app_nil_r).
  assert (reducer_calls l' = reducer_calls l ++ [(t, 2, list_ s)]) as ER
    by (unfold l'; by rewrite reducer_calls_app).
  assert (buffer l' = buffer l) as EB by (unfold buffer; by rewrite EA).
  constructor; simpl; unfold tokens, tids; rewrite ?EA, ?ED, ?EB;
    try (by destruct HS).
  - rewrite ER. intros t' a b [H|H]%elem_of_app.
    + by eapply (inv_calls _ _ _ HS).
    + apply list_elem_of_singleton in H. simplify_eq.
      repeat split; try done. lia.
  - intros _ out' Ho. congruence.
Qed.

Lemma pull_assert_fail s l t idx :
  InvS cs s l -> arrived l t idx -> reduce_tasks s = nGPUs s ->
  Z.of_nat (length (list_ s)) <> 2 * nGPUs s ->
  reduced (Z.of_nat (length cs)) (buffer l) = inl AssertionError.
Proof.
  intros HS Ha Hr Hlen. pose proof (inv_n _ _ _ HS) as HN.
  destruct (pull_first _ _ _ _ HS Ha Hr) as [HD Hl].
  unfold reduced. rewrite <- Hl, <- HN.
  by replace (_ =? _) with false by (symmetry; by apply Z.eqb_neq).
Qed.

Lemma InvS_skip s l t idx :
  InvS cs s l -> arrived l t idx -> t ∉ departures l ->
  reduce_tasks s <> nGPUs s ->
  InvS cs (mkSharedTensor (nGPUs s) (list_ s) (push_tasks s)
                          (reduce_tasks s - 1))
       (l ++ [EvDec t]).
Proof.
  intros HS Ha Hn Hr.
  pose proof (pull_later _ _ _ _ HS Ha Hr) as HD.
  destruct (inv_post _ _ _ HS HD) as (out & Ho & Hl & Hp & Hr' & Hc).
  set (l' := l ++ _).
  assert (arrivals l' = arrivals l) as EA
    by (unfold l'; rewrite arrivals_app; apply app_nil_r).
  assert (departures l' = departures l ++ [t]) as ED
    by (unfold l'; by rewrite departures_app).
  assert (reducer_calls l' = reducer_calls l) as ER
    by (unfold l'; rewrite reducer_calls_app; apply app_nil_r).
  assert (buffer l' = buffer l) as EB by (unfold buffer; by rewrite EA).
  constructor; simpl; unfold tokens, tids; rewrite ?EA, ?ER, ?EB;
    try (by destruct HS).
  - rewrite ED. apply NoDup_app. split; [by eapply inv_ndD|].
    split; [|apply NoDup_singleton].
    intros y Hy Hy'. apply list_elem_of_singleton in Hy'. by subst.
  - rewrite ED. intros y [H|H]%elem_of_app; [by eapply inv_Dlt|].
    apply list_elem_of_singleton in H. subst. eapply tids_lt; eauto.
    by eapply arrived_tids.
  - intros E. by destruct (inv_fresh _ _ _ HS E) as (_ & ? & _).
  - rewrite ED. intros _ E. by destruct (departures l).
  - intros _. exists out. rewrite ED, length_app. simpl.
    repeat split; try done; [lia|].
    rewrite Hc. by destruct (departures l).
  - rewrite ED. intros E. by destruct (departures l).
Qed.


(** *** The threads *)

(** What a step has to establish, once and for all steps. *)
Lemma Inv_update c tid p o :
  Inv cs c -> thr c !! tid = Some p ->
  (o_notify o = true -> sleeping (o_pc o) = false) ->
  InvS cs (o_sh o) (log c ++ o_ev o) ->
  thread_inv cs (o_sh o) (log c ++ o_ev o) tid (o_pc o) ->
  (forall t q, t <> tid -> thr c !! t = Some q ->
     thread_inv cs (o_sh o) (log c ++ o_ev o) t q) ->
  (o_notify o = false -> push_tasks (o_sh o) = 0 ->
     (exists idx, o_pc o = WaitPush Entering idx) \/
     (push_tasks (sh c) = 0 /\ (forall idx, p <> WaitPush Entering idx) /\
      forall idx, o_pc o <> WaitPush Sleeping idx)) ->
  (o_notify o = false -> reduce_tasks (o_sh o) = 0 ->
     (exists idx, o_pc o = WaitReduce Entering idx) \/
     (reduce_tasks (sh c) = 0 /\ (forall idx, p <> WaitReduce Entering idx) /\
      forall idx, o_pc o <> WaitReduce Sleeping idx)) ->
  Inv cs {| sh := o_sh o;
            thr := notify (o_notify o) (<[tid := o_pc o]> (thr c));
            log := log c ++ o_ev o |}.
Proof.
  intros HI Hp Hnot HS Hown Hoth HsP HsR.
  assert (tid < length (thr c))%nat as Hlt by (by eapply lookup_lt_Some).
  assert (forall t q,
    notify (o_notify o) (<[tid := o_pc o]> (thr c)) !! t = Some q ->
    sleeping q = true -> o_notify o = false) as Hsl.
  { intros t q Hq Hs.
    destruct (decide (o_notify o = false)) as [|En%not_false_is_true]; [done|].
    destruct (lookup_after _ _ _ _ _ _ Hp Hnot Hq) as [[_ ->]|(_ & q0 & _ & ->)].
    - rewrite Hnot in Hs; done.
    - rewrite En in Hs. by rewrite wake_not_sleeping in Hs. }
  constructor; simpl.
  - done.
  - rewrite length_notify, length_insert. by destruct HI.
  - intros t q Hq.
    destruct (lookup_after _ _ _ _ _ _ Hp Hnot Hq) as [[-> ->]|(Hne & q0 & Hq0 & ->)].
    + done.
    + specialize (Hoth _ _ Hne Hq0).
      destruct (o_notify o); [by apply thread_inv_wake|done].
  - intros Hz t idx Hq. pose proof (Hsl _ _ Hq eq_refl) as En.
    rewrite En in *. simpl in *.
    destruct (HsP eq_refl Hz) as [[idx' E]|(Hz' & HnE & HnS)].
    + exists tid, idx'. rewrite list_lookup_insert_eq by done. by rewrite E.
    + destruct (decide (t = tid)) as [->|Hne].
      { rewrite list_lookup_insert_eq in Hq by done. simplify_eq.
        by destruct (HnS idx). }
      rewrite list_lookup_insert_ne in Hq by done.
      destruct (inv_sleepP _ _ HI Hz' _ _ Hq) as (t' & idx' & Hq').
      exists t', idx'. rewrite list_lookup_insert_ne; [done|].
      intros <-. rewrite Hp in Hq'. simplify_eq. by destruct (HnE idx').
  - intros Hz t idx Hq. pose proof (Hsl _ _ Hq eq_refl) as En.
    rewrite En in *. simpl in *.
    destruct (HsR eq_refl Hz) as [[idx' E]|(Hz' & HnE & HnS)].
    + exists tid, idx'. rewrite list_lookup_insert_eq by done. by rewrite E.
    + destruct (decide (t = tid)) as [->|Hne].
      { rewrite list_lookup_insert_eq in Hq by done. simplify_eq.
        by destruct (HnS idx). }
      rewrite list_lookup_insert_ne in Hq by done.
      destruct (inv_sleepR _ _ HI Hz' _ _ Hq) as (t' & idx' & Hq').
      exists t', idx'. rewrite list_lookup_insert_ne; [done|].
      intros <-. rewrite Hp in Hq'. simplify_eq. by destruct (HnE idx').
Qed.


(** The other threads, when a thread decrements [reduce_tasks]. *)
Lemma thread_inv_pull s s' l l' tid t q out :
  thread_inv cs s l t q -> t <> tid ->
  departures l = [] \/ reduce_tasks s <> 0 ->
  arrivals l' = arrivals l -> departures l' = departures l ++ [tid] ->
  push_tasks s' = push_tasks s ->
  reduced (Z.of_nat (length cs)) (buffer l) = inr out ->
  thread_inv cs s' l' t q.
Proof.
  intros Htq Hne Hph EA ED Hp Hout.
  assert (forall y, y ∈ departures l -> y ∈ departures l') as Hmono.
  { intros y Hy. rewrite ED. apply elem_of_app. by left. }
  assert (t ∉ departures l -> t ∉ departures l') as Hanti.
  { intros Hy. rewrite ED. apply not_elem_of_app.
    split; [done|]. by intros ?%list_elem_of_singleton. }
  assert (t ∈ departures l -> reduce_tasks s <> 0) as Hnz.
  { intros Hy. destruct Hph as [E|]; [|done]. rewrite E in Hy.
    by apply elem_of_nil in Hy. }
  destruct q; simpl in *; unfold arrived, tids, buffer in *;
    rewrite ?EA, ?Hp;
    repeat match goal with
           | H : _ /\ _ |- _ => destruct H
           | H : _ \/ _ |- _ => destruct H
           | H : exists _, _ |- _ => destruct H
           end;
    try (exfalso; first [congruence | by eapply Hnz]);
    eauto 10.
Qed.

(** A step that leaves the shared object and the log as they are. *)
Lemma Inv_frame c tid p q b :
  Inv cs c -> thr c !! tid = Some p ->
  (b = true -> sleeping q = false) ->
  thread_inv cs (sh c) (log c) tid q ->
  (b = false -> push_tasks (sh c) = 0 ->
     (forall idx, p <> WaitPush Entering idx) /\
     (forall idx, q <> WaitPush Sleeping idx)) ->
  (b = false -> reduce_tasks (sh c) = 0 ->
     (forall idx, p <> WaitReduce Entering idx) /\
     (forall idx, q <> WaitReduce Sleeping idx)) ->
  Inv cs {| sh := sh c; thr := notify b (<[tid := q]> (thr c));
            log := log c ++ [] |}.
Proof.
  intros HI Hp Hb Hq HsP HsR.
  apply (Inv_update c tid p (mkOutcome (sh c) q b []) HI Hp); simpl;
    rewrite ?app_nil_r; try done.
  - by destruct HI.
  - intros t q' _ Hq'. by apply (inv_thr _ _ HI).
  - intros Eb Hz. right. split; [done|]. by apply HsP.
  - intros Eb Hz. right. split; [done|]. by apply HsR.
Qed.

Lemma Inv_step c tid c' : Inv cs c -> step tid c = Some c' -> Inv cs c'.
Proof.
  intros HI (p & o & Hp & Ho & ->)%step_inv.
  pose proof (inv_S _ _ HI) as HS. pose proof (inv_thr _ _ HI _ _ Hp) as Ht.
  assert (tid < length cs)%nat as Hlt.
  { rewrite <- (inv_len _ _ HI). by eapply lookup_lt_Some. }
  destruct p as [inputs|w idx|idx|w idx|idx|idx a|r|e]; simpl in Ho, Ht.
  - (* the push *)
    destruct Ht as [(x & Hx & ->) Hn]. simpl in Ho. simplify_eq.
    pose proof (not_arrived_pushing _ _ _ HS Hlt Hn) as Hpu.
    destruct (pushing_pre _ _ HS Hpu) as (HD & HR & H1 & H2 & H3 & H4).
    destruct (InvS_push _ _ _ _ HS Hx Hn) as [Hidx HS'].
    eapply Inv_update; eauto; simpl; try done.
    + split.
      * exists x. rewrite arrivals_app. apply elem_of_app. right.
        by apply list_elem_of_singleton.
      * rewrite departures_app, HD. simpl. by intros ?%elem_of_nil.
    + intros t q Hne Hq. pose proof (inv_thr _ _ HI _ _ Hq) as Htq.
      pose proof (pushing_threads _ _ _ _ HS Hpu Htq) as Hph.
      destruct q; try done; simpl in *.
      * destruct Htq as [? Hnt]. split; [done|]. rewrite tids_app.
        apply not_elem_of_app. split; [done|].
        by intros ?%list_elem_of_singleton.
      * destruct Htq as [? Hnt]. split; [by apply arrived_app|].
        by rewrite departures_app, app_nil_r.
    + intros _ Hz. lia.
  - (* the wait of the push phase *)
    destruct Ht as [Ha Hn].
    destruct w; [|done|]; destruct (push_tasks (sh c) =? 0) eqn:Hz;
      simplify_eq; cbn [o_sh o_pc o_notify o_ev];
      (eapply (Inv_frame _ _ _ _ _ HI Hp); simpl; try done;
       try (intros _ Hz'); repeat split; try done; lia).
  - (* the pull *)
    destruct Ht as (Ha & Hn & Hz).
    destruct (reduce_tasks (sh c) =? nGPUs (sh c)) eqn:Hr.
    + apply Z.eqb_eq in Hr.
      destruct (Z.of_nat (length (list_ (sh c))) =? 2 * nGPUs (sh c)) eqn:Hlen.
      * apply Z.eqb_eq in Hlen.
        destruct (allreduce 2 (list_ (sh c))) as [e|out] eqn:Hred;
          simplify_eq.
        -- destruct (InvS_reduce_fail _ _ _ _ _ HS Ha Hn Hz Hr Hlen Hred)
             as [Hout HS'].
           assert (arrivals (log c ++ [EvReduce tid 2 (list_ (sh c))])
                   = arrivals (log c)) as EA
             by (rewrite arrivals_app; apply app_nil_r).
           assert (departures (log c ++ [EvReduce tid 2 (list_ (sh c))])
                   = departures (log c)) as ED
             by (rewrite departures_app; apply app_nil_r).
           eapply Inv_update; eauto; simpl; try done.
           ++ left. unfold tids, buffer. rewrite EA, ED.
              repeat split; try done. by eapply arrived_tids.
           ++ intros t q _ Hq. eapply thread_inv_ext; [..|by eapply inv_thr];
                done.
        -- pose proof (InvS_reduce _ _ _ _ _ HS Ha Hn Hz Hr Hlen Hred) as HS'.
           destruct (pull_first _ _ _ _ HS Ha Hr) as [HD Hl].
           eapply Inv_update; eauto; simpl; try done.
           ++ split; [by apply arrived_app|].
              rewrite departures_app, HD. simpl.
              by apply list_elem_of_singleton.
           ++ intros t q Hne Hq. pose proof (inv_thr _ _ HI _ _ Hq) as Htq.
              destruct (inv_post _ _ _ HS') as (out' & Ho' & _).
              { rewrite departures_app, HD. done. }
              eapply thread_inv_pull; eauto.
              ** rewrite arrivals_app. apply app_nil_r.
              ** by rewrite departures_app.
              ** unfold buffer in *. rewrite arrivals_app in Ho'.
                 simpl in Ho'. rewrite app_nil_r in Ho'. done.
      * apply Z.eqb_neq in Hlen. simplify_eq.
        pose proof (pull_assert_fail _ _ _ _ HS Ha Hr Hlen) as Hout.
        apply Inv_frame with (p := Pull idx); simpl; try done.
        left. repeat split; try done. by eapply arrived_tids.
    + apply Z.eqb_neq in Hr. simplify_eq.
      pose proof (InvS_skip _ _ _ _ HS Ha Hn Hr) as HS'.
      pose proof (pull_later _ _ _ _ HS Ha Hr) as HD.
      destruct (not_departed_pulling _ _ _ HS Hlt Hn) as [|Hnz]; [done|].
      eapply Inv_update; eauto; simpl; try done.
      * split; [by apply arrived_app|].
        rewrite departures_app. apply elem_of_app. right.
        by apply list_elem_of_singleton.
      * intros t q Hne Hq. pose proof (inv_thr _ _ HI _ _ Hq) as Htq.
        destruct (inv_post _ _ _ HS HD) as (out' & Ho' & _).
        eapply thread_inv_pull; eauto.
        -- rewrite arrivals_app. apply app_nil_r.
        -- by rewrite departures_app.
  - (* the wait of the reduce phase *)
    destruct Ht as [Ha Hn].
    destruct w; [|done|]; destruct (reduce_tasks (sh c) =? 0) eqn:Hz;
      simplify_eq; cbn [o_sh o_pc o_notify o_ev];
      (eapply (Inv_frame _ _ _ _ _ HI Hp); simpl; try done;
       try (intros _ Hz'); repeat split; try done; lia).
  - (* the first read *)
    destruct Ht as (Ha & Hn & Hz).
    destruct (py_getitem (list_ (sh c)) (2 * idx)) as [a|] eqn:Hg;
      simplify_eq; apply Inv_frame with (p := Read idx); simpl; try done.
    right. repeat split; try done. exists idx. split; [done|]. by left.
  - (* the second read *)
    destruct Ht as (Ha & Hn & Hz & Hg1).
    destruct (py_getitem (list_ (sh c)) (2 * idx + 1)) as [b|] eqn:Hg;
      simplify_eq; apply Inv_frame with (p := Read2 idx a); simpl; try done.
    + exists idx. repeat split; try done. unfold slice_of. by rewrite Hg1, Hg.
    + right. repeat split; try done. exists idx. split; [done|]. by right.
  - done.
  - done.
Qed.


(** *** The invariant holds in every configuration of a round *)

Lemma lookup_start s t p :
  thr (start s cs) !! t = Some p -> exists x, cs !! t = Some x /\ p = Call [x].
Proof.
  unfold start. simpl. rewrite list_lookup_fmap.
  destruct (cs !! t) as [x|]; [|done]. intros [= <-]. eauto.
Qed.

Lemma Inv_start s :
  nGPUs s = Z.of_nat (length cs) -> round_start s -> Inv cs (start s cs).
Proof.
  intros Hn Hr. constructor.
  - constructor; simpl; try done.
    + intros ? ? ? H. by apply elem_of_nil in H.
    + apply NoDup_nil_2.
    + apply NoDup_nil_2.
    + intros ? H. by apply elem_of_nil in H.
    + intros ? ? ? H. by apply elem_of_nil in H.
  - simpl. apply length_fmap.
  - intros t p (x & Hx & ->)%lookup_start. simpl. split; [eauto|].
    by intros ?%elem_of_nil.
  - intros _ t idx (x & _ & ?)%lookup_start. done.
  - intros _ t idx (x & _ & ?)%lookup_start. done.
Qed.

Lemma Inv_steps c c' : Inv cs c -> steps c c' -> Inv cs c'.
Proof. induction 2; eauto using Inv_step. Qed.

Lemma Inv_round s c :
  nGPUs s = Z.of_nat (length cs) -> round_start s ->
  steps (start s cs) c -> Inv cs c.
Proof. intros. eapply Inv_steps; eauto using Inv_start. Qed.

(** *** No configuration of a round is stuck *)

Lemma runnable_step c t p :
  thr c !! t = Some p -> sleeping p = false -> finished p = false ->
  exists c', step t c = Some c'.
Proof.
  intros Hp Hs Hf. unfold step. rewrite Hp.
  destruct (exec_enabled t (sh c) p Hs Hf) as [o ->]. eauto.
Qed.

Lemma Inv_progress c :
  Inv cs c -> all_finished c \/ exists t c', step t c = Some c'.
Proof.
  intros HI. pose proof (inv_S _ _ HI) as HS.
  destruct (decide (Exists (fun p => sleeping p = false /\ finished p = false)
                           (thr c))) as [He|Hne].
  { right. apply Exists_exists in He as (p & Hp & Hs & Hf).
    apply list_elem_of_lookup in Hp as [t Hp]. exists t.
    by eapply runnable_step. }
  apply not_Exists_Forall in Hne; [|intros x; apply _].
  rewrite Forall_forall in Hne.
  assert (forall t p, thr c !! t = Some p ->
            sleeping p = true \/ finished p = true) as Hall.
  { intros t p Hp. specialize (Hne p). simpl in Hne.
    destruct (sleeping p), (finished p); auto. exfalso. apply Hne; [|done].
    apply list_elem_of_lookup. eauto. }
  clear Hne.
  (* nobody sleeps in the push phase *)
  assert (forall t idx, thr c !! t <> Some (WaitPush Sleeping idx)) as HnoP.
  { intros t idx Hp. pose proof (inv_thr _ _ HI _ _ Hp) as [Ha Hn].
    destruct (decide (push_tasks (sh c) = 0)) as [Hz|Hz].
    - destruct (inv_sleepP _ _ HI Hz _ _ Hp) as (t' & idx' & Hp').
      by destruct (Hall _ _ Hp').
    - pose proof (arrived_nonempty _ _ _ Ha) as HA.
      pose proof (inv_push _ _ _ HS HA) as Hpt.
      destruct (pigeon_missing (tids (log c)) (length cs)) as (x & Hx & Hnx).
      { by eapply inv_ndA. }
      { rewrite length_tids. pose proof (arrivals_le _ _ HS). lia. }
      rewrite <- (inv_len _ _ HI) in Hx.
      apply lookup_lt_is_Some in Hx as [q Hq].
      pose proof (inv_thr _ _ HI _ _ Hq) as Htq.
      destruct (Hall _ _ Hq) as [Hsl|Hfi].
      + destruct q as [| [] ? | | [] ? | | | |]; try done; simpl in Htq.
        * destruct Htq as [?%arrived_tids _]. done.
        * destruct Htq as [?%arrived_tids _]. done.
      + destruct q; try done; simpl in Htq.
        * destruct Htq as (? & ?%arrived_tids & _). done.
        * destruct Htq as [(_ & ? & _)|(_ & _ & _ & ? & ?%arrived_tids & _)];
            done. }
  (* nobody sleeps in the reduce phase *)
  assert (forall t idx, thr c !! t <> Some (WaitReduce Sleeping idx)) as HnoR.
  { intros t idx Hp. pose proof (inv_thr _ _ HI _ _ Hp) as [Ha Hn].
    destruct (decide (reduce_tasks (sh c) = 0)) as [Hz|Hz].
    - destruct (inv_sleepR _ _ HI Hz _ _ Hp) as (t' & idx' & Hp').
      by destruct (Hall _ _ Hp').
    - pose proof (elem_nonempty _ _ Hn) as HD.
      destruct (inv_post _ _ _ HS HD) as (out & Ho & _ & _ & Hr & _).
      destruct (pigeon_missing (departures (log c)) (length cs))
        as (x & Hx & Hnx).
      { by eapply inv_ndD. }
      { pose proof (departures_le _ _ HS). lia. }
      rewrite <- (inv_len _ _ HI) in Hx.
      apply lookup_lt_is_Some in Hx as [q Hq].
      pose proof (inv_thr _ _ HI _ _ Hq) as Htq.
      destruct (Hall _ _ Hq) as [Hsl|Hfi].
      + destruct q as [| [] ? | | [] ? | | | |]; try done; simpl in Htq.
        * by eapply HnoP.
        * by destruct Htq.
      + destruct q; try done; simpl in Htq.
        * destruct Htq as (? & _ & ? & _). done.
        * destruct Htq as [(_ & _ & _ & ?)|(? & _)]; [congruence|done]. }
  left. intros t p Hp. destruct (Hall _ _ Hp) as [Hsl|]; [|done].
  destruct p as [| [] ? | | [] ? | | | |]; try done.
  - by edestruct HnoP.
  - by edestruct HnoR.
Qed.


(** From every configuration of a round the threads can all leave the
    call, and every run leads to such a configuration after at most
    [measure] steps. *)
Lemma Inv_completes c :
  Inv cs c -> exists c', steps c c' /\ all_finished c'.
Proof.
  remember (measure c) as k eqn:Hk. revert c Hk.
  induction (lt_wf k) as [k _ IH]. intros c -> HI.
  destruct (Inv_progress _ HI) as [Hf|(t & c1 & Hs)].
  - exists c. split; [apply steps_refl|done].
  - destruct (IH (measure c1) (step_measure _ _ _ Hs) c1 eq_refl)
      as (c' & Hs' & Hf'); [by eapply Inv_step|].
    exists c'. split; [|done]. by eapply steps_cons.
Qed.

End RoundFacts.


(** ** What a round computes *)

Lemma omap_ext_in {A B} (f g : A -> option B) (l : list A) :
  (forall x, x ∈ l -> f x = g x) -> omap f l = omap g l.
Proof.
  induction l as [|x l IH]; intros H; [done|]. csimpl.
  rewrite (H x) by (by left). rewrite IH; [done|].
  intros y Hy. apply H. by right.
Qed.

Lemma omap_lookup_seq {A} (l : list A) :
  omap (fun i => l !! i) (seq 0 (length l)) = l.
Proof.
  induction l as [|x l IH] using rev_ind; [done|].
  rewrite length_app. simpl. rewrite Nat.add_1_r, seq_S, omap_app. simpl.
  rewrite lookup_app_r, Nat.sub_diag by lia. simpl. f_equal.
  rewrite <- IH at 2. apply omap_ext_in. intros i Hi.
  apply elem_of_seq in Hi. apply lookup_app_l. lia.
Qed.

Lemma concat_Permutation {A} (l l' : list (list A)) :
  l ≡ₚ l' -> concat l ≡ₚ concat l'.
Proof.
  induction 1; simpl.
  - done.
  - by apply Permutation_app_head.
  - rewrite !app_assoc. apply Permutation_app_tail, Permutation_app_comm.
  - etrans; eauto.
Qed.

Lemma length_concat_const {A} (a : nat) (l : list (list A)) :
  Forall (fun g => length g = a) l -> length (concat l) = (length l * a)%nat.
Proof.
  induction 1 as [|g l Hg _ IH]; [done|]. simpl.
  rewrite length_app, IH, Hg. lia.
Qed.

Lemma lookup_concat_const {A} (a : nat) (l : list (list A)) j g i :
  Forall (fun g => length g = a) l -> l !! j = Some g -> (i < a)%nat ->
  concat l !! (j * a + i)%nat = g !! i.
Proof.
  intros Hl. revert j. induction Hl as [|g' l Hg _ IH]; intros j Hj Hi; [done|].
  destruct j as [|j]; simplify_eq/=.
  - apply lookup_app_l. lia.
  - rewrite lookup_app_r by lia.
    match goal with
    | |- _ !! ?n = _ => replace n with (j * length g' + i)%nat by lia
    end.
    by apply IH.
Qed.

Lemma py_getitem_lookup {A} (l : list A) (i : nat) :
  (i < length l)%nat -> py_getitem l (Z.of_nat i) = l !! i.
Proof.
  intros Hi. unfold py_getitem.
  replace (0 <=? Z.of_nat i) with true by (symmetry; apply Z.leb_le; lia).
  replace (Z.of_nat i <? Z.of_nat (length l)) with true
    by (symmetry; apply Z.ltb_lt; lia).
  simpl. by rewrite Nat2Z.id.
Qed.

Section RoundResults.

Variable cs : list (list V).

Lemma token_range s l t idx :
  InvS cs s l -> arrived l t idx ->
  0 <= idx < Z.of_nat (length (arrivals l)).
Proof.
  intros HS [v Hv].
  assert (idx ∈ tokens l) as Hi.
  { unfold tokens. apply list_elem_of_fmap. exists (t, idx). split; [done|].
    apply list_elem_of_fmap. by exists (t, idx, v). }
  rewrite (inv_tok _ _ _ HS) in Hi. apply elem_of_seqZ in Hi. lia.
Qed.

Lemma arrivals_values (A : list (nat * Z * list V)) :
  (forall t i v, (t, i, v) ∈ A -> cs !! t = Some v) ->
  A.*2 = omap (fun t => cs !! t) (A.*1.*1).
Proof.
  induction A as [|[[t i] v] A IH]; intros H; [done|]. simpl.
  rewrite (H t i v) by (by left). f_equal. apply IH.
  intros t' i' v' Hv. apply (H t' i' v'). by right.
Qed.

(** When all have arrived, the buffer holds the contributions of all
    threads, in the order of arrival. *)
Lemma full_tids s l :
  InvS cs s l -> length (arrivals l) = length cs ->
  tids l ≡ₚ seq 0 (length cs).
Proof.
  intros HS Hlen. apply NoDup_Permutation.
  - by eapply inv_ndA.
  - apply NoDup_seq.
  - intros x. rewrite elem_of_seq. split.
    + intros Hx. pose proof (tids_lt _ _ _ _ HS Hx). lia.
    + intros Hx. destruct (decide (x ∈ tids l)) as [|Hn]; [done|].
      assert (x < length cs)%nat as Hx' by lia.
      pose proof (not_arrived_room _ _ _ _ HS Hx' Hn). lia.
Qed.

Lemma full_groups s l :
  InvS cs s l -> length (arrivals l) = length cs ->
  (arrivals l).*2 ≡ₚ cs.
Proof.
  intros HS Hlen. rewrite arrivals_values by apply (inv_vals _ _ _ HS).
  fold (tids l). rewrite (full_tids _ _ HS Hlen).
  by rewrite omap_lookup_seq.
Qed.

Lemma groups_Forall (P : list V -> Prop) s l :
  InvS cs s l -> Forall P cs -> Forall P ((arrivals l).*2).
Proof.
  intros HS Hcs. apply Forall_forall. intros v Hv.
  apply list_elem_of_fmap in Hv as ([[t i] v'] & -> & Hv).
  rewrite Forall_forall in Hcs. apply Hcs.
  apply list_elem_of_lookup. exists t. by eapply inv_vals.
Qed.

(** The push phase is over exactly when all have arrived. *)
Lemma pushed_full s l :
  InvS cs s l -> arrivals l <> [] -> push_tasks s = 0 ->
  length (arrivals l) = length cs.
Proof. intros HS HA Hz. pose proof (inv_push _ _ _ HS HA). lia. Qed.

Lemma full_length s l :
  InvS cs s l -> length (arrivals l) = length cs ->
  length (buffer l) = length (concat cs).
Proof.
  intros HS Hlen. unfold buffer. apply Permutation_length.
  apply concat_Permutation. by eapply full_groups.
Qed.

Lemma length_concat_two :
  Forall (fun x => length x = 2%nat) cs ->
  length (concat cs) = (2 * length cs)%nat.
Proof. intros H. rewrite (length_concat_const 2) by done. lia. Qed.


(** *** Rounds whose callers contribute two values each *)

Lemma pairs_full_buffer s l :
  Forall (fun x => length x = 2%nat) cs ->
  InvS cs s l -> arrivals l <> [] -> push_tasks s = 0 ->
  length (buffer l) = (2 * length cs)%nat.
Proof.
  intros Hcs HS HA Hz.
  rewrite (full_length _ _ HS) by (by eapply pushed_full).
  by apply length_concat_two.
Qed.

(** The first pull of such a round passes the assertion. *)
Lemma pairs_reduced s l :
  Forall (fun x => length x = 2%nat) cs ->
  InvS cs s l -> arrivals l <> [] -> push_tasks s = 0 ->
  reduced (Z.of_nat (length cs)) (buffer l) = allreduce 2 (buffer l).
Proof.
  intros Hcs HS HA Hz. unfold reduced.
  rewrite (pairs_full_buffer _ _ Hcs HS HA Hz).
  by replace (_ =? _) with true by (symmetry; apply Z.eqb_eq; lia).
Qed.

Lemma pairs_reduced_returns s l :
  Forall (fun x => length x = 2%nat) cs -> reducer_returns cs ->
  InvS cs s l -> arrivals l <> [] -> push_tasks s = 0 ->
  exists out, reduced (Z.of_nat (length cs)) (buffer l) = inr out.
Proof.
  intros Hcs Hret HS HA Hz. rewrite (pairs_reduced _ _ Hcs HS HA Hz).
  destruct (Hret ((arrivals l).*2)) as [out Ho].
  { eapply full_groups; [done|]. by eapply pushed_full. }
  fold (buffer l) in Ho. rewrite Ho. eauto.
Qed.

(** The reducer is not called before the first decrement, and is called
    once, by the thread of the first decrement, on the whole buffer. *)
Lemma calls_shape s l :
  Forall (fun x => length x = 2%nat) cs -> reducer_returns cs ->
  InvS cs s l ->
  (departures l = [] /\ reducer_calls l = []) \/
  (exists t D, departures l = t :: D /\
     reducer_calls l = [(t, 2, buffer l)]).
Proof.
  intros Hcs Hret HS. destruct (departures l) as [|d D] eqn:ED.
  - left. split; [done|].
    destruct (reducer_calls l) as [|[[t a] b] r] eqn:ER; [done|].
    destruct (inv_calls _ _ _ HS t a b) as (_ & _ & Hz & HA & _).
    { rewrite ER. by left. }
    destruct (pairs_reduced_returns _ _ Hcs Hret HS HA Hz) as [out Ho].
    rewrite (inv_calls0 _ _ _ HS ED _ Ho) in ER. done.
  - right. exists d, D. split; [done|].
    destruct (inv_post _ _ _ HS) as (out & _ & _ & _ & _ & Hc).
    { by rewrite ED. }
    rewrite ED in Hc. simpl in Hc.
    destruct (reducer_calls l) as [|[[t a] b] [|? r]] eqn:ER; try done.
    injection Hc as Ht.
    destruct (inv_calls _ _ _ HS t a b) as (-> & -> & _).
    { rewrite ER. by left. }
    by subst.
Qed.

(** A thread that has left the call has decremented, unless the first
    pull fails. *)
Lemma finished_departed c t p :
  Inv cs c -> thr c !! t = Some p -> finished p = true ->
  t ∈ departures (log c) \/
  exists e, p = Raised e /\ push_tasks (sh c) = 0 /\
    arrivals (log c) <> [] /\
    reduced (Z.of_nat (length cs)) (buffer (log c)) = inl e.
Proof.
  intros HI Hp Hf. pose proof (inv_thr _ _ HI _ _ Hp) as Ht.
  destruct p; try done; simpl in Ht.
  - destruct Ht as (idx & _ & ? & _). by left.
  - destruct Ht as [(_ & Ha & Hz & Hr)|(? & _)]; [|by left].
    right. exists e. repeat split; try done.
    intros E. unfold tids in Ha. rewrite E in Ha. by apply elem_of_nil in Ha.
Qed.

Lemma all_departed c :
  Inv cs c ->
  (forall t p, thr c !! t = Some p -> t ∈ departures (log c)) ->
  departures (log c) ≡ₚ seq 0 (length cs).
Proof.
  intros HI Hall. pose proof (inv_S _ _ HI) as HS.
  apply NoDup_Permutation.
  - by eapply inv_ndD.
  - apply NoDup_seq.
  - intros x. rewrite elem_of_seq. split.
    + intros Hx. pose proof (inv_Dlt _ _ _ HS _ Hx). lia.
    + intros Hx. assert (is_Some (thr c !! x)) as [p Hp].
      { apply lookup_lt_is_Some. rewrite (inv_len _ _ HI). lia. }
      by eapply Hall.
Qed.


(** *** Rounds whose reducer combines the groups *)

Lemma combined_slice (comb : list V -> V) s l t idx :
  Forall (fun x => length x = 2%nat) cs ->
  symmetric comb -> reducer_combines comb (length cs) ->
  InvS cs s l -> arrived l t idx -> departures l <> [] ->
  slice_of s idx = (Some (comb (column 0 cs)), Some (comb (column 1 cs))).
Proof.
  intros Hcs Hsym Hcomb HS Ha HD.
  destruct (inv_post _ _ _ HS HD) as (out & Ho & Hl & Hz & _).
  pose proof (arrived_nonempty _ _ _ Ha) as HA.
  pose proof (pushed_full _ _ HS HA Hz) as Hfull.
  pose proof (token_range _ _ _ _ HS Ha) as Hidx.
  rewrite (pairs_reduced _ _ Hcs HS HA Hz) in Ho.
  destruct (Hcomb ((arrivals l).*2)) as (out' & Ho' & Hlen & Hget).
  { by rewrite length_fmap. }
  { by apply (groups_Forall _ s). }
  fold (buffer l) in Ho'. rewrite Ho' in Ho. injection Ho as Heq.
  subst out.
  pose proof (full_groups _ _ HS Hfull) as Hperm.
  assert (forall k, comb (column k (arrivals l).*2) = comb (column k cs))
    as Hcol.
  { intros k. apply Hsym. unfold column. by rewrite Hperm. }
  unfold slice_of. rewrite Hl.
  replace (2 * idx) with (Z.of_nat (2 * Z.to_nat idx + 0)) by lia.
  replace (Z.of_nat (2 * Z.to_nat idx + 0) + 1)
    with (Z.of_nat (2 * Z.to_nat idx + 1)) by lia.
  rewrite !py_getitem_lookup by lia.
  rewrite !Hget, !Hcol by lia. done.
Qed.

Lemma combined_results (comb : list V -> V) c t p :
  Forall (fun x => length x = 2%nat) cs ->
  symmetric comb -> reducer_combines comb (length cs) ->
  Inv cs c -> thr c !! t = Some p -> finished p = true ->
  p = Returned (comb (column 0 cs), comb (column 1 cs)).
Proof.
  intros Hcs Hsym Hcomb HI Hp Hf.
  pose proof (inv_S _ _ HI) as HS. pose proof (inv_thr _ _ HI _ _ Hp) as Ht.
  destruct p as [| | | | | |[a b]|e]; try done; simpl in Ht.
  - destruct Ht as (idx & Ha & Hd & _ & Hsl).
    rewrite (combined_slice comb _ _ _ _ Hcs Hsym Hcomb HS Ha) in Hsl
      by (by eapply elem_nonempty).
    by simplify_eq/=.
  - exfalso. destruct Ht as [(_ & Ha & Hz & Hr)|(Hd & _ & _ & idx & Ha & Hg)].
    + assert (arrivals (log c) <> []) as HA.
      { intros E. unfold tids in Ha. rewrite E in Ha.
        by apply elem_of_nil in Ha. }
      rewrite (pairs_reduced _ _ Hcs HS HA Hz) in Hr.
      destruct (Hcomb ((arrivals (log c)).*2)) as (out' & Ho' & _).
      { rewrite length_fmap. by eapply pushed_full. }
      { by apply (groups_Forall _ (sh c)). }
      fold (buffer (log c)) in Ho'. by rewrite Ho' in Hr.
    + pose proof (combined_slice comb _ _ _ _ Hcs Hsym Hcomb HS Ha
                    (elem_nonempty _ _ Hd)) as Hsl.
      unfold slice_of in Hsl. destruct Hg as [Hg|Hg]; rewrite Hg in Hsl; done.
Qed.


(** *** Rounds whose first pull fails *)

Lemma departures_arrivals s l :
  InvS cs s l -> departures l <> [] ->
  arrivals l <> [] /\ push_tasks s = 0 /\
  exists out, reduced (Z.of_nat (length cs)) (buffer l) = inr out.
Proof.
  intros HS HD. destruct (inv_post _ _ _ HS HD) as (out & Ho & _ & Hz & _).
  split; [|eauto].
  intros E. by destruct (inv_fresh _ _ _ HS E) as (_ & ? & _).
Qed.

Lemma raises_reduced e s l :
  Forall (fun x => length x = 2%nat) cs -> reducer_raises e cs ->
  InvS cs s l -> arrivals l <> [] -> push_tasks s = 0 ->
  reduced (Z.of_nat (length cs)) (buffer l) = inl e.
Proof.
  intros Hcs Hfail HS HA Hz. rewrite (pairs_reduced _ _ Hcs HS HA Hz).
  unfold buffer. rewrite Hfail; [done|].
  eapply full_groups; [done|]. by eapply pushed_full.
Qed.

Lemma raises_no_departure e s l :
  Forall (fun x => length x = 2%nat) cs -> reducer_raises e cs ->
  InvS cs s l -> departures l = [].
Proof.
  intros Hcs Hfail HS.
  destruct (decide (departures l = [])) as [|HD]; [done|].
  destruct (departures_arrivals _ _ HS HD) as (HA & Hz & out & Ho).
  rewrite (raises_reduced e _ _ Hcs Hfail HS HA Hz) in Ho. done.
Qed.

Lemma malformed_reduced s l :
  length (concat cs) <> (2 * length cs)%nat ->
  InvS cs s l -> arrivals l <> [] -> push_tasks s = 0 ->
  Z.of_nat (length (buffer l)) <> 2 * Z.of_nat (length cs) /\
  reduced (Z.of_nat (length cs)) (buffer l) = inl AssertionError.
Proof.
  intros Hbad HS HA Hz.
  assert (Z.of_nat (length (buffer l)) <> 2 * Z.of_nat (length cs)) as Hne.
  { rewrite (full_length _ _ HS) by (by eapply pushed_full). lia. }
  split; [done|]. unfold reduced.
  by replace (_ =? _) with false by (symmetry; by apply Z.eqb_neq).
Qed.

Lemma malformed_no_departure s l :
  length (concat cs) <> (2 * length cs)%nat ->
  InvS cs s l -> departures l = [].
Proof.
  intros Hbad HS.
  destruct (decide (departures l = [])) as [|HD]; [done|].
  destruct (departures_arrivals _ _ HS HD) as (HA & Hz & out & Ho).
  destruct (malformed_reduced _ _ Hbad HS HA Hz) as [_ Hr]. congruence.
Qed.

(** When nobody is about to push, all have arrived. *)
Lemma no_call_full c :
  Inv cs c ->
  (forall t inputs, thr c !! t <> Some (Call inputs)) ->
  length (arrivals (log c)) = length cs.
Proof.
  intros HI Hno. pose proof (inv_S _ _ HI) as HS.
  pose proof (arrivals_le _ _ _ HS) as Hle.
  destruct (decide (length (arrivals (log c)) = length cs)) as [|Hne];
    [done|exfalso].
  destruct (pigeon_missing (tids (log c)) (length cs)) as (x & Hx & Hnx).
  { by eapply inv_ndA. }
  { rewrite length_tids. lia. }
  rewrite <- (inv_len _ _ HI) in Hx. apply lookup_lt_is_Some in Hx as [q Hq].
  pose proof (inv_thr _ _ HI _ _ Hq) as Htq.
  destruct q; simpl in Htq.
  - by eapply Hno.
  - destruct Htq as [?%arrived_tids _]. done.
  - destruct Htq as [?%arrived_tids _]. done.
  - destruct Htq as [?%arrived_tids _]. done.
  - destruct Htq as [?%arrived_tids _]. done.
  - destruct Htq as [?%arrived_tids _]. done.
  - destruct Htq as (? & ?%arrived_tids & _). done.
  - destruct Htq as [(_ & ? & _)|(_ & _ & _ & ? & ?%arrived_tids & _)]; done.
Qed.


(** *** Rounds whose contributions add up to [2 * length cs] values *)

(** The first pull of such a round passes the assertion, whatever each
    caller contributes. *)
Lemma total_reduced s l :
  length (concat cs) = (2 * length cs)%nat ->
  InvS cs s l -> arrivals l <> [] -> push_tasks s = 0 ->
  reduced (Z.of_nat (length cs)) (buffer l) = allreduce 2 (buffer l).
Proof.
  intros Htot HS HA Hz. unfold reduced.
  rewrite (full_length _ _ HS) by (by eapply pushed_full).
  by replace (_ =? _) with true by (symmetry; apply Z.eqb_eq; lia).
Qed.

(** A caller that has decremented and has left the call ran line 165. *)
Lemma departed_outcome c t p :
  Inv cs c -> thr c !! t = Some p -> finished p = true ->
  t ∈ departures (log c) ->
  exists idx, arrived (log c) t idx /\
    p = outcome_of_slice (slice_of (sh c) idx).
Proof.
  intros HI Hp Hf Hd. pose proof (inv_thr _ _ HI _ _ Hp) as Htp.
  destruct p as [| | | | | |[a b]|e]; try done; simpl in Htp.
  - destruct Htp as (idx & Ha & _ & _ & Hsl). exists idx.
    split; [done|]. by rewrite Hsl.
  - destruct Htp as [(Hn' & _)|(_ & _ & -> & idx & Ha & Hg)]; [done|].
    exists idx. split; [done|]. unfold slice_of, outcome_of_slice.
    destruct Hg as [-> | ->]; [done|].
    by destruct (py_getitem (list_ (sh c)) (2 * idx)).
Qed.

(** When the reducer returns as many values as the round has contributed,
    a caller that has left the call has returned the two values of the
    buffer at its token. *)
Lemma finished_pair c t p :
  length (concat cs) = (2 * length cs)%nat ->
  reducer_returns cs -> reducer_keeps_length ->
  Inv cs c -> thr c !! t = Some p -> finished p = true ->
  exists idx a b, arrived (log c) t idx /\ p = Returned (a, b) /\
    list_ (sh c) !! Z.to_nat (2 * idx) = Some a /\
    list_ (sh c) !! Z.to_nat (2 * idx + 1) = Some b.
Proof.
  intros Htot Hret Hkeep HI Hp Hf. pose proof (inv_S _ _ HI) as HS.
  assert (t ∈ departures (log c)) as Hd.
  { destruct (finished_departed c t p HI Hp Hf)
      as [|(e & _ & Hz & HA & He)]; [done|exfalso].
    rewrite (total_reduced _ _ Htot HS HA Hz) in He.
    destruct (Hret ((arrivals (log c)).*2)) as [out Ho].
    { eapply full_groups; [done|]. by eapply pushed_full. }
    fold (buffer (log c)) in Ho. congruence. }
  destruct (departed_outcome c t p HI Hp Hf Hd) as (idx & Ha & ->).
  destruct (inv_post _ _ _ HS (elem_nonempty _ _ Hd))
    as (out & Ho & Hl & Hz & _).
  pose proof (arrived_nonempty _ _ _ Ha) as HA.
  rewrite (total_reduced _ _ Htot HS HA Hz) in Ho.
  pose proof (Hkeep _ _ _ Ho) as Hlen.
  rewrite (full_length _ _ HS) in Hlen by (by eapply pushed_full).
  pose proof (token_range _ _ _ _ HS Ha) as Hidx.
  rewrite (pushed_full _ _ HS HA Hz) in Hidx.
  unfold slice_of. rewrite Hl.
  destruct (lookup_lt_is_Some_2 out (Z.to_nat (2 * idx))) as [a Ea]; [lia|].
  destruct (lookup_lt_is_Some_2 out (Z.to_nat (2 * idx + 1))) as [b Eb];
    [lia|].
  assert (py_getitem out (2 * idx) = Some a) as ->.
  { rewrite <- Ea, <- py_getitem_lookup by lia. f_equal. lia. }
  assert (py_getitem out (2 * idx + 1) = Some b) as ->.
  { rewrite <- Eb, <- py_getitem_lookup by lia. f_equal. lia. }
  by exists idx, a, b.
Qed.

End RoundResults.


(** ** The claims about one round *)

(** C1, as amended.  In a round of [length cs >= 1] callers, each
    contributing two values, with a reducer that returns: whatever the
    interleaving, the
    reducer is called at most once, by the thread that is the first to
    decrement [reduce_tasks], with arity 2 and on the whole buffer; when
    all callers have left the call it has been called exactly once and
    every caller has decremented once; and the callers can always all
    leave the call.  In the pull section, the thread that finds
    [reduce_tasks] equal to [nGPUs] replaces the buffer by the result of
    the reducer and decrements; a thread that finds another value only
    decrements. *)
Theorem C1_reducer_called_exactly_once
    (cs : list (list V)) (s : SharedTensor) (c : config) :
  cs <> [] ->
  Forall (fun x => length x = 2%nat) cs ->
  reducer_returns cs ->
  nGPUs s = Z.of_nat (length cs) ->
  round_start s ->
  steps (start s cs) c ->
  (length (reducer_calls (log c)) <= 1)%nat /\
  (forall t a b, (t, a, b) ∈ reducer_calls (log c) ->
     head (departures (log c)) = Some t /\ a = 2 /\ b = buffer (log c)) /\
  (all_finished c ->
     length (reducer_calls (log c)) = 1%nat /\
     departures (log c) ≡ₚ seq 0 (length cs)) /\
  (exists c', steps c c' /\ all_finished c') /\
  (forall tid idx s' out,
     reduce_tasks s' = nGPUs s' ->
     Z.of_nat (length (list_ s')) = 2 * nGPUs s' ->
     allreduce 2 (list_ s') = inr out ->
     exec tid s' (Pull idx) =
       Some (mkOutcome
               (mkSharedTensor (nGPUs s') out (push_tasks s')
                               (reduce_tasks s' - 1))
               (WaitReduce Entering idx) false
               [EvReduce tid 2 (list_ s'); EvDec tid])) /\
  (forall tid idx s',
     reduce_tasks s' <> nGPUs s' ->
     exec tid s' (Pull idx) =
       Some (mkOutcome
               (mkSharedTensor (nGPUs s') (list_ s') (push_tasks s')
                               (reduce_tasks s' - 1))
               (WaitReduce Entering idx) false [EvDec tid])).
Proof.
  intros Hne Hcs Hret Hn Hstart Hsteps.
  pose proof (Inv_round cs s c Hn Hstart Hsteps) as HI.
  pose proof (inv_S _ _ HI) as HS.
  pose proof (calls_shape cs _ _ Hcs Hret HS) as Hshape.
  split; [|split; [|split; [|split; [|split]]]].
  - destruct Hshape as [[_ ->]|(t & D & _ & ->)]; simpl; lia.
  - intros t a b Hin.
    destruct Hshape as [[_ E]|(t' & D & ED & E)]; rewrite E in Hin.
    + by apply elem_of_nil in Hin.
    + apply list_elem_of_singleton in Hin. simplify_eq. by rewrite ED.
  - intros Hfin.
    assert (forall t p, thr c !! t = Some p -> t ∈ departures (log c))
      as Hall.
    { intros t p Hp.
      destruct (finished_departed cs c t p HI Hp (Hfin _ _ Hp))
        as [|(e & _ & Hz & HA & He)]; [done|].
      destruct (pairs_reduced_returns cs _ _ Hcs Hret HS HA Hz) as [out Ho].
      congruence. }
    pose proof (all_departed cs c HI Hall) as Hperm.
    split; [|done].
    destruct Hshape as [[ED _]|(t & D & _ & ->)]; [|done].
    rewrite ED in Hperm. apply Permutation_length in Hperm.
    rewrite length_seq in Hperm. destruct cs; simplify_eq/=.
  - by apply (Inv_completes cs).
  - intros tid idx s' out Hr Hl Ho. simpl.
    apply Z.eqb_eq in Hr, Hl. by rewrite Hr, Hl, Ho.
  - intros tid idx s' Hr. simpl. apply Z.eqb_neq in Hr. by rewrite Hr.
Qed.


(** C2, as amended: with arity 2.  In a round of [length cs >= 1]
    callers, each contributing two values, with a reducer that combines
    the groups position by position with [comb] and puts the result in
    every group: no caller raises, every caller that returns gets the
    pair of the combinations of all contributions, and the callers can
    always all return, whatever the interleaving so far. *)
Theorem C2_every_caller_gets_the_combination
    (comb : list V -> V) (cs : list (list V)) (s : SharedTensor)
    (c : config) :
  cs <> [] ->
  Forall (fun x => length x = 2%nat) cs ->
  symmetric comb ->
  reducer_combines comb (length cs) ->
  nGPUs s = Z.of_nat (length cs) ->
  round_start s ->
  steps (start s cs) c ->
  (forall t r, thr c !! t = Some (Returned r) ->
     r = (comb (column 0 cs), comb (column 1 cs))) /\
  (forall t e, thr c !! t <> Some (Raised e)) /\
  (exists c', steps c c' /\
     forall t, (t < length cs)%nat ->
       thr c' !! t = Some (Returned (comb (column 0 cs), comb (column 1 cs)))).
Proof.
  intros Hne Hcs Hsym Hcomb Hn Hstart Hsteps.
  pose proof (Inv_round cs s c Hn Hstart Hsteps) as HI.
  split; [|split].
  - intros t r Hp.
    pose proof (combined_results cs comb c t _ Hcs Hsym Hcomb HI Hp eq_refl).
    by simplify_eq.
  - intros t e Hp.
    pose proof (combined_results cs comb c t _ Hcs Hsym Hcomb HI Hp eq_refl).
    done.
  - destruct (Inv_completes cs c HI) as (c' & Hs' & Hf). exists c'.
    split; [done|]. intros t Ht.
    pose proof (Inv_steps cs _ _ HI Hs') as HI'.
    rewrite <- (inv_len _ _ HI') in Ht.
    apply lookup_lt_is_Some in Ht as [p Hp]. rewrite Hp. f_equal.
    eapply combined_results; eauto.
Qed.

(** C3. In a round whose callers contribute [a] values each: the token
    of a push is [nGPUs - push_tasks], read before the decrement (and
    after the reset, if there is one); the [k]-th arrival gets token [k];
    no token is given twice; once nobody is left to push the tokens are
    0, ..., [length cs - 1]; a thread keeps the token of its own push;
    and until the reduction the contribution of the caller with token
    [idx] is at the positions [idx * a], ..., [idx * a + a - 1] of the
    buffer. *)
Theorem C3_tokens_follow_arrival_order
    (a : nat) (cs : list (list V)) (s : SharedTensor) (c : config) :
  Forall (fun x => length x = a) cs ->
  nGPUs s = Z.of_nat (length cs) ->
  round_start s ->
  steps (start s cs) c ->
  (forall tid s' x,
     let s1 := if push_tasks s' =? 0 then _clear s' else s' in
     exists s2,
       exec tid s' (Call [x]) =
         Some (mkOutcome s2 (WaitPush Entering (nGPUs s1 - push_tasks s1))
                 false [EvPush tid (nGPUs s1 - push_tasks s1) x]) /\
       push_tasks s2 = push_tasks s1 - 1 /\ list_ s2 = list_ s1 ++ x) /\
  tokens (log c) = seqZ 0 (Z.of_nat (length (arrivals (log c)))) /\
  NoDup (tokens (log c)) /\
  ((forall t inputs, thr c !! t <> Some (Call inputs)) ->
     tokens (log c) = seqZ 0 (Z.of_nat (length cs))) /\
  (forall t idx,
     (exists w, thr c !! t = Some (WaitPush w idx)) \/
     thr c !! t = Some (Pull idx) \/
     (exists w, thr c !! t = Some (WaitReduce w idx)) \/
     thr c !! t = Some (Read idx) \/
     (exists v, thr c !! t = Some (Read2 idx v)) ->
     arrived (log c) t idx) /\
  (forall t idx v, (t, idx, v) ∈ arrivals (log c) ->
     0 <= idx < Z.of_nat (length cs) /\ cs !! t = Some v /\
     (departures (log c) = [] ->
      forall i, (i < a)%nat ->
        list_ (sh c) !! (Z.to_nat idx * a + i)%nat = v !! i)).
Proof.
  intros Hcs Hn Hstart Hsteps.
  pose proof (Inv_round cs s c Hn Hstart Hsteps) as HI.
  pose proof (inv_S _ _ HI) as HS.
  split; [|split; [|split; [|split; [|split]]]].
  - intros tid s' x s1. simpl. eexists. split; [reflexivity|]. done.
  - by apply (inv_tok _ _ _ HS).
  - rewrite (inv_tok _ _ _ HS). apply NoDup_seqZ.
  - intros Hno. rewrite (inv_tok _ _ _ HS). by rewrite (no_call_full cs c).
  - intros t idx H. destruct H as [[w Hp]|[Hp|[[w Hp]|[Hp|[v Hp]]]]];
      pose proof (inv_thr _ _ HI _ _ Hp) as Ht; simpl in Ht; by destruct Ht.
  - intros t idx v Hin.
    assert (arrived (log c) t idx) as Ha by (by exists v).
    pose proof (token_range cs _ _ _ _ HS Ha) as Hr.
    pose proof (arrivals_le cs _ _ HS) as Hle.
    split; [lia|]. split; [by eapply inv_vals|].
    intros HD i Hi.
    destruct (inv_pre _ _ _ HS) as [-> _]; eauto using arrived_nonempty.
    apply list_elem_of_lookup in Hin as [j Hj].
    assert (tokens (log c) !! j = Some idx) as Htok.
    { unfold tokens. by rewrite !list_lookup_fmap, Hj. }
    rewrite (inv_tok _ _ _ HS) in Htok. apply lookup_seqZ in Htok as [-> _].
    rewrite Z.add_0_l, Nat2Z.id. unfold buffer.
    apply lookup_concat_const; [|by rewrite list_lookup_fmap, Hj|done].
    by apply (groups_Forall cs _ (sh c)).
Qed.

(** C6. A thread that finds [reduce_tasks] equal to [nGPUs] and a
    buffer of another length than [2 * nGPUs] raises [AssertionError]:
    the reducer is not called, the object is left as it is, and the thread
    does not decrement.  In a round whose callers contribute two values
    each the assertion never fails: a thread that is about to run it
    finds a buffer of [2 * nGPUs] values; so a caller that raises
    [AssertionError] raises what the reducer raised on the buffer, and
    with a reducer that raises no [AssertionError] no caller does. *)
Theorem C6_assertion_guards_the_reduction
    (cs : list (list V)) (s : SharedTensor) (c : config) :
  Forall (fun x => length x = 2%nat) cs ->
  nGPUs s = Z.of_nat (length cs) ->
  round_start s ->
  steps (start s cs) c ->
  (forall tid idx s',
     reduce_tasks s' = nGPUs s' ->
     Z.of_nat (length (list_ s')) <> 2 * nGPUs s' ->
     exec tid s' (Pull idx) =
       Some (mkOutcome s' (Raised AssertionError) false [])) /\
  (forall t idx,
     thr c !! t = Some (Pull idx) ->
     reduce_tasks (sh c) = nGPUs (sh c) ->
     Z.of_nat (length (list_ (sh c))) = 2 * nGPUs (sh c)) /\
  (forall t, thr c !! t = Some (Raised AssertionError) ->
     allreduce 2 (buffer (log c)) = inl AssertionError) /\
  ((forall a l, allreduce a l <> inl AssertionError) ->
   forall t, thr c !! t <> Some (Raised AssertionError)).
Proof.
  intros Hcs Hn Hstart Hsteps.
  pose proof (Inv_round cs s c Hn Hstart Hsteps) as HI.
  pose proof (inv_S _ _ HI) as HS.
  assert (forall t, thr c !! t = Some (Raised AssertionError) ->
            allreduce 2 (buffer (log c)) = inl AssertionError) as Hfrom.
  { intros t Hp. pose proof (inv_thr _ _ HI _ _ Hp) as Ht. simpl in Ht.
    destruct Ht as [(_ & Ha & Hz & Hr)|(_ & _ & ? & _)]; [|done].
    assert (arrivals (log c) <> []) as HA.
    { intros E. unfold tids in Ha. rewrite E in Ha.
      by apply elem_of_nil in Ha. }
    by rewrite (pairs_reduced cs _ _ Hcs HS HA Hz) in Hr. }
  split; [|split; [|split]].
  - intros tid idx s' Hr Hl. simpl.
    apply Z.eqb_eq in Hr. apply Z.eqb_neq in Hl. by rewrite Hr, Hl.
  - intros t idx Hp Hr. pose proof (inv_thr _ _ HI _ _ Hp) as Ht.
    simpl in Ht. destruct Ht as (Ha & _ & Hz).
    destruct (pull_first cs _ _ _ _ HS Ha Hr) as [_ ->].
    rewrite (pairs_full_buffer cs _ _ Hcs HS (arrived_nonempty _ _ _ Ha) Hz).
    rewrite (inv_n _ _ _ HS). lia.
  - done.
  - intros Hno t Hp. by apply (Hno 2 (buffer (log c))), (Hfrom t).
Qed.

(** C8, as amended.  In a round of [length cs >= 1] callers, each
    contributing two values, with a reducer that raises [e] whenever it is
    called on their contributions: no caller ever waits in the reduce
    phase; a caller that leaves the call raises [e], the very exception of
    the reducer; no configuration is stuck, and the callers can always all
    leave the call.  The callers of a round whose contributions do not
    add up to [2 * nGPUs] values all raise [AssertionError]: when [e] is
    not an [AssertionError], no caller of the round of the failing reducer
    ends as they do. *)
Theorem C8_reducer_error_reaches_every_caller
    (e : exn) (cs : list (list V)) (s : SharedTensor) (c : config) :
  cs <> [] ->
  Forall (fun x => length x = 2%nat) cs ->
  reducer_raises e cs ->
  nGPUs s = Z.of_nat (length cs) ->
  round_start s ->
  steps (start s cs) c ->
  (forall t w idx, thr c !! t <> Some (WaitReduce w idx)) /\
  (forall t p, thr c !! t = Some p -> finished p = true -> p = Raised e) /\
  (all_finished c \/ exists t c', step t c = Some c') /\
  (exists c', steps c c' /\
     forall t, (t < length cs)%nat -> thr c' !! t = Some (Raised e)) /\
  (forall cs' s' c' t p,
     length (concat cs') <> (2 * length cs')%nat ->
     nGPUs s' = Z.of_nat (length cs') -> round_start s' ->
     steps (start s' cs') c' ->
     thr c' !! t = Some p -> finished p = true ->
     p = Raised AssertionError /\
     (e <> AssertionError -> forall t0, thr c !! t0 <> Some p)).
Proof.
  intros Hne Hcs Hfail Hn Hstart Hsteps.
  pose proof (Inv_round cs s c Hn Hstart Hsteps) as HI.
  assert (forall c0 t p, Inv cs c0 -> thr c0 !! t = Some p ->
            finished p = true -> p = Raised e) as Hfin.
  { intros c0 t p HI0 Hp Hf. pose proof (inv_S _ _ HI0) as HS0.
    destruct (finished_departed cs c0 t p HI0 Hp Hf)
      as [Hd|(e' & -> & Hz & HA & He)].
    - rewrite (raises_no_departure cs e _ _ Hcs Hfail HS0) in Hd.
      by apply elem_of_nil in Hd.
    - rewrite (raises_reduced cs e _ _ Hcs Hfail HS0 HA Hz) in He.
      by simplify_eq. }
  split; [|split; [|split; [|split]]].
  - intros t w idx Hp. pose proof (inv_thr _ _ HI _ _ Hp) as [_ Hd].
    rewrite (raises_no_departure cs e _ _ Hcs Hfail (inv_S _ _ HI)) in Hd.
    by apply elem_of_nil in Hd.
  - intros t p. by apply Hfin.
  - by apply (Inv_progress cs).
  - destruct (Inv_completes cs c HI) as (c' & Hs' & Hf). exists c'.
    split; [done|]. intros t Ht.
    pose proof (Inv_steps cs _ _ HI Hs') as HI'.
    rewrite <- (inv_len _ _ HI') in Ht.
    apply lookup_lt_is_Some in Ht as [p Hp]. rewrite Hp. f_equal.
    eapply Hfin; eauto.
  - intros cs' s' c' t p Hbad Hn' Hstart' Hsteps' Hp Hf.
    pose proof (Inv_round cs' s' c' Hn' Hstart' Hsteps') as HI'.
    pose proof (inv_S _ _ HI') as HS'.
    assert (p = Raised AssertionError) as ->.
    { destruct (finished_departed cs' c' t p HI' Hp Hf)
        as [Hd|(e' & -> & Hz & HA & He)].
      - rewrite (malformed_no_departure cs' _ _ Hbad HS') in Hd.
        by apply elem_of_nil in Hd.
      - destruct (malformed_reduced cs' _ _ Hbad HS' HA Hz) as [_ Hr].
        congruence. }
    split; [done|].
    intros He t0 Hp0. pose proof (Hfin c t0 _ HI Hp0 eq_refl). congruence.
Qed.

(** C10. The arity is the constant 2.  In every round, whatever the
    callers contribute: a caller that returns gets the two values of the
    buffer at [2 * idx] and [2 * idx + 1], [idx] its token; every call of
    the reducer has 2 as its first argument; when the contributions do
    not add up to [2 * length cs] values the reducer is never called,
    nobody decrements [reduce_tasks], every caller that leaves the call
    raises [AssertionError], and the callers can always all leave it; and
    when they do add up to [2 * length cs] values, however they are
    spread over the callers, and the reducer returns as many values as it
    is given, every caller that leaves the call has returned a pair, the
    two values that the buffer holds at [2 * idx] and [2 * idx + 1], and
    the callers can always all return. *)
Theorem C10_arity_is_two
    (cs : list (list V)) (s : SharedTensor) (c : config) :
  nGPUs s = Z.of_nat (length cs) ->
  round_start s ->
  steps (start s cs) c ->
  (forall t r, thr c !! t = Some (Returned r) ->
     exists idx, arrived (log c) t idx /\
       py_getitem (list_ (sh c)) (2 * idx) = Some r.1 /\
       py_getitem (list_ (sh c)) (2 * idx + 1) = Some r.2) /\
  (forall t a b, (t, a, b) ∈ reducer_calls (log c) -> a = 2) /\
  (length (concat cs) <> (2 * length cs)%nat ->
     reducer_calls (log c) = [] /\
     departures (log c) = [] /\
     (forall t p, thr c !! t = Some p -> finished p = true ->
        p = Raised AssertionError) /\
     (exists c', steps c c' /\
        forall t, (t < length cs)%nat ->
          thr c' !! t = Some (Raised AssertionError))) /\
  (length (concat cs) = (2 * length cs)%nat ->
   reducer_returns cs -> reducer_keeps_length ->
     (forall t p, thr c !! t = Some p -> finished p = true ->
        exists idx a b, arrived (log c) t idx /\ p = Returned (a, b) /\
          list_ (sh c) !! Z.to_nat (2 * idx) = Some a /\
          list_ (sh c) !! Z.to_nat (2 * idx + 1) = Some b) /\
     (exists c', steps c c' /\
        forall t, (t < length cs)%nat ->
          exists idx a b, arrived (log c') t idx /\
            thr c' !! t = Some (Returned (a, b)) /\
            list_ (sh c') !! Z.to_nat (2 * idx) = Some a /\
            list_ (sh c') !! Z.to_nat (2 * idx + 1) = Some b)).
Proof.
  intros Hn Hstart Hsteps.
  pose proof (Inv_round cs s c Hn Hstart Hsteps) as HI.
  pose proof (inv_S _ _ HI) as HS.
  split; [|split; [|split]]; cycle 3.
  { intros Htot Hret Hkeep. split.
    - intros t p. by apply (finished_pair cs).
    - destruct (Inv_completes cs c HI) as (c' & Hs' & Hf). exists c'.
      split; [done|]. intros t Ht.
      pose proof (Inv_steps cs _ _ HI Hs') as HI'.
      rewrite <- (inv_len _ _ HI') in Ht.
      apply lookup_lt_is_Some in Ht as [p Hp].
      destruct (finished_pair cs c' t p Htot Hret Hkeep HI' Hp (Hf _ _ Hp))
        as (idx & a & b & Ha & -> & Hg).
      by exists idx, a, b. }
  - intros t r Hp. pose proof (inv_thr _ _ HI _ _ Hp) as Ht. simpl in Ht.
    destruct Ht as (idx & Ha & _ & _ & Hsl). exists idx. split; [done|].
    unfold slice_of in Hsl. by simplify_eq.
  - intros t a b Hin. by destruct (inv_calls _ _ _ HS _ _ _ Hin).
  - intros Hbad.
    assert (forall c0 t p, Inv cs c0 -> thr c0 !! t = Some p ->
              finished p = true -> p = Raised AssertionError) as Hfin.
    { intros c0 t p HI0 Hp Hf. pose proof (inv_S _ _ HI0) as HS0.
      destruct (finished_departed cs c0 t p HI0 Hp Hf)
        as [Hd|(e' & -> & Hz & HA & He)].
      - rewrite (malformed_no_departure cs _ _ Hbad HS0) in Hd.
        by apply elem_of_nil in Hd.
      - destruct (malformed_reduced cs _ _ Hbad HS0 HA Hz) as [_ Hr].
        congruence. }
    split; [|split; [|split]].
    + destruct (reducer_calls (log c)) as [|[[t a] b] r] eqn:ER; [done|].
      destruct (inv_calls _ _ _ HS t a b) as (_ & -> & Hz & HA & Hl).
      { rewrite ER. by left. }
      by destruct (malformed_reduced cs _ _ Hbad HS HA Hz).
    + by apply (malformed_no_departure cs (sh c)).
    + intros t p. by apply Hfin.
    + destruct (Inv_completes cs c HI) as (c' & Hs' & Hf). exists c'.
      split; [done|]. intros t Ht.
      pose proof (Inv_steps cs _ _ HI Hs') as HI'.
      rewrite <- (inv_len _ _ HI') in Ht.
      apply lookup_lt_is_Some in Ht as [p Hp]. rewrite Hp. f_equal.
      eapply Hfin; eauto.
Qed.


(** C4. When all the callers of a round have left the call,
    [push_tasks] is zero; the next push then resets the object before it
    appends: the buffer holds the values of that push only, both counters
    are back at [nGPUs] (less the arrival), the token is 0; and the first
    step of a next round, whatever its callers [cs'], leads to the very
    configuration that it leads to on an object that has just been
    built. *)
Theorem C4_next_round_starts_reset
    (cs cs' : list (list V)) (s : SharedTensor) (c : config) :
  cs <> [] ->
  nGPUs s = Z.of_nat (length cs) ->
  round_start s ->
  steps (start s cs) c ->
  all_finished c ->
  push_tasks (sh c) = 0 /\
  (forall tid x,
     exec tid (sh c) (Call [x]) =
       Some (mkOutcome
               (mkSharedTensor (nGPUs s) x (nGPUs s - 1) (nGPUs s))
               (WaitPush Entering 0) false [EvPush tid 0 x])) /\
  (forall tid c1,
     step tid (start (sh c) cs') = Some c1 ->
     step tid (start (__init__ (nGPUs s)) cs') = Some c1).
Proof.
  intros Hne Hn Hstart Hsteps Hfin.
  pose proof (Inv_round cs s c Hn Hstart Hsteps) as HI.
  pose proof (inv_S _ _ HI) as HS. pose proof (inv_n _ _ _ HS) as Hn'.
  assert (push_tasks (sh c) = 0) as Hz.
  { assert (is_Some (thr c !! 0%nat)) as [p Hp].
    { apply lookup_lt_is_Some. rewrite (inv_len _ _ HI).
      destruct cs; simpl; [done|lia]. }
    destruct (finished_departed cs c _ p HI Hp (Hfin _ _ Hp))
      as [Hd|(e & _ & Hz & _)]; [|done].
    by destruct (departures_arrivals cs _ _ HS (elem_nonempty _ _ Hd))
      as (_ & ? & _). }
  assert (forall tid x,
     exec tid (sh c) (Call [x]) =
       Some (mkOutcome
               (mkSharedTensor (nGPUs s) x (nGPUs s - 1) (nGPUs s))
               (WaitPush Entering 0) false [EvPush tid 0 x])) as Hpush.
  { intros tid x. simpl. rewrite Hz. simpl. rewrite Hn, Hn'.
    by rewrite Z.sub_diag. }
  split; [done|]. split; [done|].
  intros tid c1 (p & o & Hp & Ho & ->)%step_inv. unfold step.
  change (thr (start (__init__ (nGPUs s)) cs')) with (thr (start (sh c) cs')).
  rewrite Hp. apply lookup_start in Hp as (x & _ & ->).
  rewrite Hpush in Ho. simplify_eq.
  assert (nGPUs s <> 0) as Hnz.
  { rewrite Hn. destruct cs; simpl; [done|lia]. }
  simpl. apply Z.eqb_neq in Hnz. rewrite Hnz. simpl.
  by rewrite Z.sub_diag.
Qed.


(** C9. Whatever [eps] and [momentum] the caller gives, or leaves out,
    the module is built with [eps = 1e-5] and [momentum = 0.1]: the
    module built does not depend on these two arguments. *)
Theorem C9_eps_and_momentum_are_discarded
    (device_count nf : Z) (e m e' m' : option float) (kw : K) :
  eps (super (_SyncBatchNorm__init__ device_count nf e m kw)) = float_1e_5 /\
  momentum (super (_SyncBatchNorm__init__ device_count nf e m kw))
    = float_0_1 /\
  _SyncBatchNorm__init__ device_count nf e m kw =
    _SyncBatchNorm__init__ device_count nf e' m' kw.
Proof.
  unfold _SyncBatchNorm__init__. simpl.
  split; [reflexivity|]. split; reflexivity.
Qed.

End Barrier.

(** ** The reducer that sums *)

Lemma groups_of_concat {A} (groups : list (list A)) (fuel : nat) :
  Forall (fun g => length g = 2%nat) groups ->
  (length groups <= fuel)%nat ->
  groups_of fuel 2 (concat groups) = groups.
Proof.
  intros H. revert fuel. induction H as [|g gs Hg _ IH]; intros fuel Hf.
  - by destruct fuel.
  - destruct fuel as [|fuel]; simpl in Hf; [lia|].
    destruct g as [|x [|y [|z g]]]; simplify_eq/=.
    f_equal. apply IH. lia.
Qed.

Lemma allreduce_sum_returns (cs : list (list Z)) :
  reducer_returns allreduce_sum cs.
Proof. intros b _. unfold allreduce_sum. eauto. Qed.

Lemma allreduce_sum_keeps_length : reducer_keeps_length allreduce_sum.
Proof.
  intros a b out [= <-]. apply length_imap.
Qed.

Lemma sumZ_symmetric : symmetric sumZ.
Proof.
  intros l l' H. induction H; simpl; lia.
Qed.

Lemma allreduce_sum_combines (n : nat) :
  reducer_combines allreduce_sum sumZ n.
Proof.
  intros groups Hlen Hg.
  pose proof (length_concat_const 2 groups Hg) as Hl.
  exists (imap (fun i _ =>
            sumZ (column (i mod 2)
                    (groups_of (length (concat groups)) 2 (concat groups))))
            (concat groups)).
  split; [reflexivity|]. split.
  - rewrite length_imap. lia.
  - intros g k Hgn Hk. rewrite list_lookup_imap.
    destruct (lookup_lt_is_Some_2 (concat groups) (2 * g + k)) as [v ->];
      [lia|].
    unfold fmap, option_fmap, option_map. cbv beta.
    rewrite groups_of_concat by (done || lia).
    replace (2 * g + k)%nat with (k + g * 2)%nat by lia.
    rewrite Nat.Div0.mod_add, Nat.mod_small by lia. done.
Qed.

(** ** The scenario of two callers *)

Definition round2 : list (list Z) := [[10; 4]; [20; 16]].

(** Thread 0 arrives first and sleeps, thread 1 arrives, wakes it and
    reduces; both leave the call. *)
Definition sched2 : list nat := [0; 0; 1; 1; 1; 1; 0; 0; 0; 0; 0; 1; 1; 1]%nat.

Definition final2 : @config Z Empty_set :=
  {| sh := mkSharedTensor 2 [30; 20; 30; 20] 0 0;
     thr := [Returned (30, 20); Returned (30, 20)];
     log := [EvPush 0 0 [10; 4]; EvPush 1 1 [20; 16];
             EvReduce 1 2 [10; 4; 20; 16]; EvDec 1; EvDec 0] |}.

Lemma run_sched2 :
  run allreduce_sum sched2 (start (__init__ 2) round2) = final2.
Proof. reflexivity. Defined.

Lemma steps_final2 : steps allreduce_sum (start (__init__ 2) round2) final2.
Proof. rewrite <- run_sched2. apply steps_run. Defined.

Lemma round2_pairs : Forall (fun x : list Z => length x = 2%nat) round2.
Proof. repeat constructor. Defined.

Lemma final2_finished : all_finished final2.
Proof. intros [|[|t]] p Hp; simpl in Hp; by simplify_eq. Defined.

Lemma start2_fresh : round_start (__init__ 2 : @SharedTensor Z).
Proof. by left. Defined.

Lemma C1_witness :
  round2 <> [] /\
  Forall (fun x : list Z => length x = 2%nat) round2 /\
  reducer_returns allreduce_sum round2 /\
  steps allreduce_sum (start (__init__ 2) round2) final2 /\
  all_finished final2 /\
  length (reducer_calls (log final2)) = 1%nat /\
  departures (log final2) ≡ₚ [0; 1]%nat.
Proof.
  assert (round2 <> []) as Hne by done.
  pose proof (C1_reducer_called_exactly_once allreduce_sum round2
                (__init__ 2) final2 Hne round2_pairs
                (allreduce_sum_returns round2) eq_refl start2_fresh steps_final2)
    as (_ & _ & H & _).
  destruct (H final2_finished) as [H1 H2].
  repeat split; try done.
  - apply round2_pairs.
  - apply allreduce_sum_returns.
  - apply steps_final2.
  - apply final2_finished.
Defined.

(** The scenario of three callers of the spec, one value each: [[5]],
    [[7]], [[9]]. *)
Definition round3 : list (list Z) := [[5]; [7]; [9]].

(** Threads 0 and 1 arrive and sleep, thread 2 arrives, wakes them and
    pulls; then threads 0 and 1 pull. *)
Definition sched3 : list nat := [0; 0; 1; 1; 2; 2; 2; 0; 0; 1; 1]%nat.

(** Thread 0 arrives and sleeps, thread 1 arrives, wakes it and pulls;
    then thread 0 pulls. *)
Definition sched_pulls : list nat := [0; 0; 1; 1; 1; 0; 0]%nat.

(** The reducer is not called once in every round.  In the round of
    three callers with one value each the three callers leave the call
    with [AssertionError] and the reducer has not been called; in the
    round of two callers with a reducer that raises, each caller has
    called it. *)
Lemma C1_counterexample_no_call_and_two_calls :
  let c3 := run allreduce_sum sched3 (start (__init__ 3) round3) in
  let c2 := run allreduce_raising sched_pulls (start (__init__ 2) round2) in
  (steps allreduce_sum (start (__init__ 3) round3) c3 /\
   thr c3 =
     [Raised AssertionError; Raised AssertionError; Raised AssertionError] /\
   reducer_calls (log c3) = []) /\
  (steps allreduce_raising (start (__init__ 2) round2) c2 /\
   thr c2 = [Raised (OtherError tt); Raised (OtherError tt)] /\
   reducer_calls (log c2) =
     [(1%nat, 2, [10; 4; 20; 16]); (0%nat, 2, [10; 4; 20; 16])]).
Proof.
  split; (split; [apply steps_run|split; reflexivity]).
Qed.

(** The scenario of the spec: the callers submit [[10, 4]] and [[20, 16]],
    the reducer sums; whatever the interleaving, a caller that returns
    gets [(30, 20)], and both can return. *)
Lemma C2_witness :
  round2 <> [] /\
  Forall (fun x : list Z => length x = 2%nat) round2 /\
  symmetric sumZ /\
  reducer_combines allreduce_sum sumZ (length round2) /\
  forall c, steps allreduce_sum (start (__init__ 2) round2) c ->
    (forall t r, thr c !! t = Some (Returned r) -> r = (30, 20)) /\
    exists c', steps allreduce_sum c c' /\
      thr c' = [Returned (30, 20); Returned (30, 20)].
Proof.
  assert (round2 <> []) as Hne by done.
  split; [done|]. split; [apply round2_pairs|].
  split; [apply sumZ_symmetric|]. split; [apply allreduce_sum_combines|].
  intros c Hc.
  pose proof (C2_every_caller_gets_the_combination allreduce_sum sumZ round2
                (__init__ 2) c Hne round2_pairs sumZ_symmetric
                (allreduce_sum_combines 2) eq_refl start2_fresh Hc)
    as (H1 & _ & c' & Hc' & H3).
  split; [exact H1|]. exists c'. split; [done|].
  pose proof (H3 0%nat ltac:(simpl; lia)) as Ha.
  pose proof (H3 1%nat ltac:(simpl; lia)) as Hb.
  pose proof (inv_len _ _ _
                (Inv_steps allreduce_sum round2 _ _
                   (Inv_round allreduce_sum round2 (__init__ 2) c eq_refl
                      start2_fresh Hc)
                   Hc')) as Hlen.
  destruct (thr c') as [|p [|q [|? ?]]]; simplify_eq/=. done.
Defined.

(** With one value for each caller the assertion of line 154 fails: one
    caller that submits [[5]] does not return. *)
Lemma C2_counterexample_arity_one :
  ~ (forall c, steps allreduce_sum (start (__init__ 1) [[5]]) c ->
       all_finished c -> exists r, thr c !! 0%nat = Some (Returned r)).
Proof.
  intros H.
  destruct (H (run allreduce_sum [0; 0; 0]%nat (start (__init__ 1) [[5]])))
    as [r Hr].
  - apply steps_run.
  - intros [|t] p Hp; vm_compute in Hp; by simplify_eq.
  - vm_compute in Hr. done.
Qed.

Lemma C3_witness :
  Forall (fun x : list Z => length x = 2%nat) round2 /\
  steps allreduce_sum (start (__init__ 2) round2) final2 /\
  tokens (log final2) = [0; 1] /\
  arrived (log final2) 1%nat 1.
Proof.
  pose proof (C3_tokens_follow_arrival_order allreduce_sum 2 round2
                (__init__ 2) final2 round2_pairs eq_refl start2_fresh
                steps_final2) as (_ & _ & _ & H & _).
  split; [apply round2_pairs|]. split; [apply steps_final2|].
  split.
  - rewrite H; [done|]. intros [|[|t]] inputs Hp; by simplify_eq/=.
  - exists [20; 16]. apply list_elem_of_lookup. by exists 1%nat.
Defined.

Lemma C4_witness :
  round2 <> [] /\
  steps allreduce_sum (start (__init__ 2) round2) final2 /\
  all_finished final2 /\
  push_tasks (sh final2) = 0 /\
  exec allreduce_sum 0 (sh final2) (Call [[1; 2]]) =
    Some (mkOutcome (mkSharedTensor 2 [1; 2] 1 2) (WaitPush Entering 0)
            false [EvPush 0 0 [1; 2]]).
Proof.
  assert (round2 <> []) as Hne by done.
  pose proof (C4_next_round_starts_reset allreduce_sum round2 round2
                (__init__ 2) final2 Hne eq_refl start2_fresh steps_final2
                final2_finished) as (H1 & H2 & _).
  split; [done|]. split; [apply steps_final2|].
  split; [apply final2_finished|]. split; [exact H1|]. apply H2.
Defined.


(** Thread 1 is about to run the assertion: the buffer holds four
    values. *)
Lemma C6_witness :
  let c := run allreduce_sum [0; 0; 1; 1]%nat (start (__init__ 2) round2) in
  Forall (fun x : list Z => length x = 2%nat) round2 /\
  thr c = [WaitPush Woken 0; Pull 1] /\
  reduce_tasks (sh c) = nGPUs (sh c) /\
  Z.of_nat (length (list_ (sh c))) = 2 * nGPUs (sh c) /\
  forall t, thr final2 !! t <> Some (Raised AssertionError).
Proof.
  pose proof (C6_assertion_guards_the_reduction allreduce_sum round2
                (__init__ 2) _ round2_pairs eq_refl start2_fresh
                (steps_run allreduce_sum [0; 0; 1; 1]%nat _))
    as (_ & H & _).
  pose proof (C6_assertion_guards_the_reduction allreduce_sum round2
                (__init__ 2) final2 round2_pairs eq_refl start2_fresh
                steps_final2) as (_ & _ & _ & H').
  split; [apply round2_pairs|]. split; [reflexivity|].
  split; [reflexivity|]. split.
  - apply (H 1%nat 1); reflexivity.
  - apply H'. intros a l. unfold allreduce_sum. discriminate.
Defined.

Lemma allreduce_raising_raises (cs : list (list Z)) :
  reducer_raises allreduce_raising (OtherError tt) cs.
Proof. by intros b _. Defined.

Lemma C8_witness :
  round2 <> [] /\
  Forall (fun x : list Z => length x = 2%nat) round2 /\
  reducer_raises allreduce_raising (OtherError tt) round2 /\
  exists c', steps allreduce_raising (start (__init__ 2) round2) c' /\
    thr c' = [Raised (OtherError tt); Raised (OtherError tt)].
Proof.
  assert (round2 <> []) as Hne by done.
  pose proof (C8_reducer_error_reaches_every_caller allreduce_raising
                (OtherError tt) round2 (__init__ 2)
                (start (__init__ 2) round2) Hne
                round2_pairs (allreduce_raising_raises round2) eq_refl
                start2_fresh (steps_refl _ _))
    as (_ & _ & _ & (c' & Hc' & H) & _).
  split; [done|]. split; [apply round2_pairs|].
  split; [apply allreduce_raising_raises|]. exists c'. split; [done|].
  pose proof (H 0%nat ltac:(simpl; lia)) as Ha.
  pose proof (H 1%nat ltac:(simpl; lia)) as Hb.
  pose proof (inv_len _ _ _
                (Inv_steps allreduce_raising round2 _ _
                   (Inv_start allreduce_raising round2 (__init__ 2) eq_refl
                      start2_fresh) Hc')) as Hlen.
  destruct (thr c') as [|p [|q [|? ?]]]; simplify_eq/=. done.
Defined.

(** A reducer that raises [AssertionError], whatever it is given. *)
Definition allreduce_asserting (arity : Z) (l : list Z)
  : @exn Empty_set + list Z :=
  inl AssertionError.

(** A reducer with a state of its own, the number of the calls made to it
    so far, which the log holds: its call number [k] behaves as
    [reducer k]. *)
Definition step_counting {V Err : Type}
    (reducer : nat -> Z -> list V -> @exn Err + list V)
    (tid : nat) (c : @config V Err) : option config :=
  step (reducer (length (reducer_calls (log c)))) tid c.

Fixpoint run_counting {V Err : Type}
    (reducer : nat -> Z -> list V -> @exn Err + list V)
    (sched : list nat) (c : @config V Err) : config :=
  match sched with
  | [] => c
  | tid :: sched' =>
      match step_counting reducer tid c with
      | Some c' => run_counting reducer sched' c'
      | None => run_counting reducer sched' c
      end
  end.

(** A reducer that raises when it is called for the first time and
    returns its arguments afterwards. *)
Definition allreduce_failing_once (k : nat) (arity : Z) (l : list Z)
  : @exn unit + list Z :=
  match k with
  | O => inl (OtherError tt)
  | S _ => inr l
  end.

(** Both threads have left the wait of the push phase; thread 0 pulls
    first, then thread 1, which then waits in the reduce phase. *)
Definition sched_first_pull_fails : list nat := [0; 0; 1; 1; 0; 0; 1; 1]%nat.

(** The error of the reducer is not passed on to the other callers, and
    it need not differ from that of a round with a buffer of the wrong
    length.  When the reducer raises for the caller that pulls first only,
    that caller raises and the other one, which finds [reduce_tasks] still
    equal to [nGPUs], calls the reducer again, decrements and sleeps in
    the wait of the reduce phase, where nobody will wake it: no thread can
    take a step.  And the callers of a round whose reducer raises
    [AssertionError] end as the callers of a round with three values for
    two callers do. *)
Lemma C8_counterexample_no_propagation :
  let c := run_counting allreduce_failing_once sched_first_pull_fails
             (start (__init__ 2) round2) in
  (thr c = [Raised (OtherError tt); WaitReduce Sleeping 1] /\
   reduce_tasks (sh c) = 1 /\
   forall t, step_counting allreduce_failing_once t c = None) /\
  thr (run allreduce_asserting sched_pulls (start (__init__ 2) round2)) =
    thr (run allreduce_sum sched_pulls (start (__init__ 2) [[10]; [20; 16]])) /\
  thr (run allreduce_asserting sched_pulls (start (__init__ 2) round2)) =
    [Raised AssertionError; Raised AssertionError].
Proof.
  split; [|split; reflexivity].
  split; [reflexivity|]. split; [reflexivity|].
  intros [|[|t]]; reflexivity.
Qed.

(** Two callers contribute three values and one: four in all.  Both
    return the two values of the reduced buffer at their tokens. *)
Lemma C10_witness :
  let c := run allreduce_sum sched2 (start (__init__ 2) [[10; 4; 20]; [16]]) in
  steps allreduce_sum (start (__init__ 1) [[5]])
        (run allreduce_sum [0; 0; 0]%nat (start (__init__ 1) [[5]])) /\
  reducer_calls
    (log (run allreduce_sum [0; 0; 0]%nat (start (__init__ 1) [[5]]))) = [] /\
  (forall t a b,
    (t, a, b) ∈ reducer_calls (log final2) -> a = 2) /\
  thr c = [Returned (30, 20); Returned (30, 20)] /\
  list_ (sh c) = [30; 20; 30; 20] /\
  (forall t p, thr c !! t = Some p -> finished p = true ->
     exists idx a b, arrived (log c) t idx /\ p = Returned (a, b) /\
       list_ (sh c) !! Z.to_nat (2 * idx) = Some a /\
       list_ (sh c) !! Z.to_nat (2 * idx + 1) = Some b).
Proof.
  pose proof (C10_arity_is_two allreduce_sum [[5]] (__init__ 1)
                (run allreduce_sum [0; 0; 0]%nat (start (__init__ 1) [[5]]))
                eq_refl (or_introl eq_refl) (steps_run _ _ _))
    as (_ & _ & H & _).
  pose proof (C10_arity_is_two allreduce_sum round2 (__init__ 2) final2
                eq_refl start2_fresh steps_final2) as (_ & H2 & _).
  pose proof (C10_arity_is_two allreduce_sum [[10; 4; 20]; [16]] (__init__ 2)
                _ eq_refl start2_fresh (steps_run allreduce_sum sched2 _))
    as (_ & _ & _ & H3).
  destruct (H3 eq_refl (allreduce_sum_returns _) allreduce_sum_keeps_length)
    as [H4 _].
  split; [apply steps_run|]. split; [|split; [exact H2|]].
  - apply H. simpl. lia.
  - split; [reflexivity|]. split; [reflexivity|exact H4].
Defined.

(** ** A caller that calls again while the round is not over

    Two callers, [[10, 4]] and [[20, 16]].  Both push, thread 1 reduces,
    both decrement.  Thread 0 then leaves its wait, reads its values and
    returns; its next call finds [push_tasks] at zero, resets the object
    and pushes [[1, 2]].  Thread 1 has not read yet. *)

(** Thread 1 has left its wait and is about to read. *)
Definition sched_reader_late : list (@action Z) :=
  [Run 0; Run 1; Run 1; Run 1; Run 1; Run 0; Run 0; Run 0; Run 1;
   Run 0; Run 0; Invoke 0 ([[1; 2]]%Z); Run 0]%nat.

(** The late reader is thread 0, which has token 0; thread 1 calls
    again. *)
Definition sched_reader_late_first : list (@action Z) :=
  [Run 0; Run 1; Run 1; Run 1; Run 0; Run 0; Run 0; Run 1; Run 1; Run 1;
   Invoke 1 ([[1; 2]]%Z); Run 1; Run 0; Run 0]%nat.

(** Thread 1 is still in its wait of the reduce phase, notified. *)
Definition sched_waiter_late : list (@action Z) :=
  [Run 0; Run 1; Run 1; Run 1; Run 1; Run 0; Run 0; Run 0;
   Run 0; Run 0; Invoke 0 ([[1; 2]]%Z); Run 0; Run 1; Run 0]%nat.

(** C7. The push of the next round does not wait for the callers of the
    round in progress: here it resets and extends the buffer while
    thread 1 has not read its values.  Thread 1 then raises [IndexError];
    when the late reader is the one with token 0 it returns [(1, 2)], the
    values just pushed for the next round, not reduced; and when thread 1
    is still in its wait it finds [reduce_tasks] reset to 2 and sleeps
    again, thread 0 sleeps in the push phase, and no thread can take a
    step. *)
Theorem C7_next_push_does_not_wait_for_readers :
  let c0 := start (__init__ 2) round2 in
  let c := play allreduce_sum sched_reader_late c0 in
  thr c = [WaitPush Entering 0; Read 1] /\
  sh c = mkSharedTensor 2 [1; 2] 1 2 /\
  thr (play allreduce_sum (sched_reader_late ++ [Run 1%nat]) c0)
    = [WaitPush Entering 0; Raised IndexError] /\
  thr (play allreduce_sum sched_reader_late_first c0)
    = [Returned (1, 2); WaitPush Entering 0] /\
  let d := play allreduce_sum sched_waiter_late c0 in
  thr d = [WaitPush Sleeping 0; WaitReduce Sleeping 1] /\
  sh d = mkSharedTensor 2 [1; 2] 1 2 /\
  forall t, step allreduce_sum t d = None.
Proof.
  cbv zeta. repeat split; try reflexivity.
  intros [|[|t]]; reflexivity.
Qed.

(** * More about the barrier *)

Section Barriers.

Context {V Err : Type}.
Variable allreduce : Z -> list V -> @exn Err + list V.

(** The thread has left the wait of the push phase. *)
Definition past_push (p : @pc V Err) : bool :=
  match p with
  | Call _ | WaitPush _ _ => false
  | _ => true
  end.

(** The thread has left the wait of the reduce phase. *)
Definition past_reduce (p : @pc V Err) : bool :=
  match p with
  | Read _ | Read2 _ _ | Returned _ => true
  | _ => false
  end.

(** Runs of exactly [k] steps. *)
Inductive steps_n (c : @config V Err) : nat -> @config V Err -> Prop :=
| steps_n_O : steps_n c 0 c
| steps_n_S k c1 c2 tid :
    steps_n c k c1 -> step allreduce tid c1 = Some c2 -> steps_n c (S k) c2.

Lemma py_getitem_None {A} (l : list A) (i : Z) :
  0 <= i -> py_getitem l i = None -> Z.of_nat (length l) <= i.
Proof.
  intros Hi. unfold py_getitem.
  replace (0 <=? i) with true by (symmetry; apply Z.leb_le; lia).
  destruct (i <? Z.of_nat (length l)) eqn:Hlt; simpl.
  - apply Z.ltb_lt in Hlt. intros Hn. apply lookup_ge_None in Hn. lia.
  - apply Z.ltb_ge in Hlt. done.
Qed.

Lemma py_getitem_Some {A} (l : list A) (i : Z) (x : A) :
  0 <= i -> py_getitem l i = Some x -> i < Z.of_nat (length l).
Proof.
  intros Hi. unfold py_getitem.
  replace (0 <=? i) with true by (symmetry; apply Z.leb_le; lia).
  destruct (i <? Z.of_nat (length l)) eqn:Hlt; simpl.
  - apply Z.ltb_lt in Hlt. done.
  - replace (i <? 0) with false by (symmetry; apply Z.ltb_ge; lia).
    by rewrite andb_false_r.
Qed.

Lemma full_NoDup (l : list nat) (n : nat) :
  NoDup l -> (forall x, x ∈ l -> (x < n)%nat) -> length l = n ->
  l ≡ₚ seq 0 n.
Proof.
  intros Hnd Hlt Hlen. apply NoDup_Permutation; [done|apply NoDup_seq|].
  intros x. rewrite elem_of_seq. split.
  - intros Hx. specialize (Hlt _ Hx). lia.
  - intros Hx. destruct (decide (x ∈ l)) as [|Hn]; [done|].
    assert (x < n)%nat as Hx' by lia.
    pose proof (pigeon_fresh l n x Hnd Hlt Hx' Hn). lia.
Qed.

Lemma reduced_inr (N : Z) (b out : list V) :
  reduced allreduce N b = inr out ->
  Z.of_nat (length b) = 2 * N /\ allreduce 2 b = inr out.
Proof.
  unfold reduced. destruct (_ =? _) eqn:E; [|done].
  apply Z.eqb_eq in E. by destruct (allreduce 2 b); intros; simplify_eq.
Qed.

Lemma reduced_inl_IndexError (N : Z) (b : list V) :
  reduced allreduce N b = inl IndexError -> allreduce 2 b = inl IndexError.
Proof. unfold reduced. by destruct (_ =? _). Qed.

(** What a thread past the push phase knows. *)
Lemma past_push_full cs c t p :
  Inv allreduce cs c -> thr c !! t = Some p -> past_push p = true ->
  push_tasks (sh c) = 0 /\ arrivals (log c) <> [].
Proof.
  intros HI Hp Hpast. pose proof (inv_S _ _ _ HI) as HS.
  pose proof (inv_thr _ _ _ HI _ _ Hp) as Ht.
  assert (forall idx, arrived (log c) t idx -> t ∈ departures (log c) ->
            push_tasks (sh c) = 0 /\ arrivals (log c) <> []) as Hd.
  { intros idx Ha Hin. split; [|by eapply arrived_nonempty].
    by destruct (departures_arrivals _ _ _ _ HS (elem_nonempty _ _ Hin))
      as (_ & ? & _). }
  destruct p; try done; simpl in Ht.
  - destruct Ht as (Ha & _ & Hz). split; [done|by eapply arrived_nonempty].
  - destruct Ht as [Ha Hin]. eauto.
  - destruct Ht as (Ha & Hin & _). eauto.
  - destruct Ht as (Ha & Hin & _). eauto.
  - destruct Ht as (idx & Ha & Hin & _). eauto.
  - destruct Ht as [(_ & Ha & Hz & _)|(Hin & _ & _ & idx & Ha & _)]; [|eauto].
    split; [done|]. intros E. unfold tids in Ha. rewrite E in Ha.
    by apply elem_of_nil in Ha.
Qed.

(** X1. The arrival barrier: in a round, as soon as one thread has left
    the wait of the push phase, every thread has pushed; the
    contributions in the log are those of all the callers, up to their
    order; until the first decrement the buffer holds them in the order of
    arrival; and every call of the reducer is on this whole buffer. *)
Theorem X1_nobody_passes_before_all_have_pushed
    (cs : list (list V)) (s : SharedTensor) (c : config) (t : nat) (p : pc) :
  nGPUs s = Z.of_nat (length cs) ->
  round_start s ->
  steps allreduce (start s cs) c ->
  thr c !! t = Some p ->
  past_push p = true ->
  push_tasks (sh c) = 0 /\
  (forall t' inputs, thr c !! t' <> Some (Call inputs)) /\
  tids (log c) ≡ₚ seq 0 (length cs) /\
  (arrivals (log c)).*2 ≡ₚ cs /\
  (departures (log c) = [] -> list_ (sh c) = buffer (log c)) /\
  (forall t' a b, (t', a, b) ∈ reducer_calls (log c) ->
     b = concat (arrivals (log c)).*2).
Proof.
  intros Hn Hstart Hsteps Hp Hpast.
  pose proof (Inv_round allreduce cs s c Hn Hstart Hsteps) as HI.
  pose proof (inv_S _ _ _ HI) as HS.
  destruct (past_push_full cs c t p HI Hp Hpast) as [Hz HA].
  pose proof (pushed_full _ _ _ _ HS HA Hz) as Hfull.
  split; [done|]. split; [|split; [|split; [|split]]].
  - intros t' inputs Hp'. pose proof (inv_thr _ _ _ HI _ _ Hp') as [[x [Hx _]] Hnin].
    assert (t' < length cs)%nat as Hlt by (by eapply lookup_lt_Some).
    pose proof (not_arrived_room _ _ _ _ _ HS Hlt Hnin). lia.
  - by eapply full_tids.
  - by eapply full_groups.
  - intros HD. by destruct (inv_pre _ _ _ _ HS HA HD).
  - intros t' a b Hin. by destruct (inv_calls _ _ _ _ HS _ _ _ Hin) as (_ & -> & _).
Qed.

(** X2. The departure barrier: in a round, as soon as one thread has
    left the wait of the reduce phase (it reads, or has returned), every
    thread has decremented [reduce_tasks], which is zero; no thread is
    left in the push phase or in the pull section; and the buffer is what
    the reducer returned on the contributions in the order of arrival. *)
Theorem X2_nobody_reads_before_all_have_pulled
    (cs : list (list V)) (s : SharedTensor) (c : config) (t : nat) (p : pc) :
  nGPUs s = Z.of_nat (length cs) ->
  round_start s ->
  steps allreduce (start s cs) c ->
  thr c !! t = Some p ->
  past_reduce p = true ->
  reduce_tasks (sh c) = 0 /\
  departures (log c) ≡ₚ seq 0 (length cs) /\
  (forall t' q, thr c !! t' = Some q ->
     match q with
     | WaitReduce _ _ | Read _ | Read2 _ _ | Returned _ | Raised IndexError
         => True
     | _ => False
     end) /\
  allreduce 2 (buffer (log c)) = inr (list_ (sh c)).
Proof.
  intros Hn Hstart Hsteps Hp Hpast.
  pose proof (Inv_round allreduce cs s c Hn Hstart Hsteps) as HI.
  pose proof (inv_S _ _ _ HI) as HS.
  pose proof (inv_thr _ _ _ HI _ _ Hp) as Ht.
  assert (t ∈ departures (log c) /\ reduce_tasks (sh c) = 0) as [Hin Hz].
  { destruct p; try done; simpl in Ht.
    - by destruct Ht as (_ & ? & ?).
    - by destruct Ht as (_ & ? & ? & _).
    - by destruct Ht as (idx & _ & ? & ? & _). }
  pose proof (elem_nonempty _ _ Hin) as HD.
  destruct (inv_post _ _ _ _ HS HD) as (out & Ho & Hl & Hpz & Hr & _).
  assert (length (departures (log c)) = length cs) as Hlen by lia.
  assert (departures (log c) ≡ₚ seq 0 (length cs)) as Hperm.
  { apply full_NoDup; [by eapply inv_ndD| |done].
    intros x. by apply (inv_Dlt _ _ _ _ HS). }
  split; [done|]. split; [done|]. split.
  - intros t' q Hq. pose proof (inv_thr _ _ _ HI _ _ Hq) as Htq.
    assert (t' ∈ departures (log c)) as Hin'.
    { rewrite Hperm. apply elem_of_seq.
      apply lookup_lt_Some in Hq. rewrite (inv_len _ _ _ HI) in Hq. lia. }
    destruct q; simpl in Htq; try done.
    + destruct Htq as [_ Hnin].
      destruct (departures_arrivals _ _ _ _ HS HD) as (HA & _).
      pose proof (pushed_full _ _ _ _ HS HA Hpz) as Hfull.
      apply lookup_lt_Some in Hq. rewrite (inv_len _ _ _ HI) in Hq.
      pose proof (not_arrived_room _ _ _ _ _ HS Hq Hnin). lia.
    + by destruct Htq as [_ ?].
    + by destruct Htq as (_ & ? & _).
    + destruct Htq as [(? & _)|(_ & _ & -> & _)]; done.
  - apply reduced_inr in Ho as [_ Ho]. by rewrite Hl.
Qed.

(** X3. Callers are served by their order of arrival: in a round, a
    caller that returns was the [idx]-th to push, for some [idx], and gets
    the values at [2 * idx] and [2 * idx + 1] of what the reducer returned
    on the contributions in the order of arrival, whatever the reducer
    is. *)
Theorem X3_result_is_the_slice_of_the_arrival
    (cs : list (list V)) (s : SharedTensor) (c : config) (t : nat)
    (r : V * V) :
  nGPUs s = Z.of_nat (length cs) ->
  round_start s ->
  steps allreduce (start s cs) c ->
  thr c !! t = Some (Returned r) ->
  exists (k : nat) (x out : list V),
    arrivals (log c) !! k = Some (t, Z.of_nat k, x) /\
    cs !! t = Some x /\
    allreduce 2 (concat (arrivals (log c)).*2) = inr out /\
    out !! (2 * k)%nat = Some r.1 /\
    out !! (2 * k + 1)%nat = Some r.2.
Proof.
  intros Hn Hstart Hsteps Hp.
  pose proof (Inv_round allreduce cs s c Hn Hstart Hsteps) as HI.
  pose proof (inv_S _ _ _ HI) as HS.
  pose proof (inv_thr _ _ _ HI _ _ Hp) as Ht. simpl in Ht.
  destruct Ht as (idx & Ha & Hin & Hz & Hsl).
  pose proof (token_range _ _ _ _ _ _ HS Ha) as Hr.
  destruct Ha as [x Hx].
  pose proof (inv_vals _ _ _ _ HS _ _ _ Hx) as Hcs.
  apply list_elem_of_lookup in Hx as [k Hk].
  assert (tokens (log c) !! k = Some idx) as Htok.
  { unfold tokens. by rewrite !list_lookup_fmap, Hk. }
  rewrite (inv_tok _ _ _ _ HS) in Htok. apply lookup_seqZ in Htok as [-> _].
  rewrite Z.add_0_l in *.
  destruct (inv_post _ _ _ _ HS (elem_nonempty _ _ Hin))
    as (out & Ho & Hl & _).
  apply reduced_inr in Ho as [_ Ho].
  exists k, x, out. split; [done|]. split; [done|]. split; [done|].
  unfold slice_of in Hsl. rewrite Hl in Hsl. injection Hsl as H1 H2.
  assert (2 * Z.of_nat k < Z.of_nat (length out)) as Hb1
    by (eapply py_getitem_Some; [|exact H1]; lia).
  assert (2 * Z.of_nat k + 1 < Z.of_nat (length out)) as Hb2
    by (eapply py_getitem_Some; [|exact H2]; lia).
  replace (2 * Z.of_nat k) with (Z.of_nat (2 * k)) in H1 by lia.
  replace (2 * Z.of_nat k + 1) with (Z.of_nat (2 * k + 1)) in H2 by lia.
  rewrite py_getitem_lookup in H1 by lia.
  rewrite py_getitem_lookup in H2 by lia. done.
Qed.

(** X4. The read of line 165 is in range exactly when the reducer
    returned enough values: in a round, a caller with token [idx] that
    raises [IndexError] after it has decremented finds fewer than
    [2 * idx + 2] values in the buffer that the reducer returned, and a
    caller that returns finds at least that many.  A caller that raises
    [IndexError] and has not decremented raises what the reducer raised
    on the buffer. *)
Theorem X4_index_error_when_the_result_is_short
    (cs : list (list V)) (s : SharedTensor) (c : config) (t : nat) (p : pc) :
  nGPUs s = Z.of_nat (length cs) ->
  round_start s ->
  steps allreduce (start s cs) c ->
  thr c !! t = Some p ->
  (p = Raised IndexError ->
     ((t ∉ departures (log c)) /\
      allreduce 2 (buffer (log c)) = inl IndexError) \/
     (t ∈ departures (log c) /\
      exists idx, arrived (log c) t idx /\
        allreduce 2 (buffer (log c)) = inr (list_ (sh c)) /\
        Z.of_nat (length (list_ (sh c))) < 2 * idx + 2)) /\
  (forall r, p = Returned r ->
     exists idx, arrived (log c) t idx /\
       allreduce 2 (buffer (log c)) = inr (list_ (sh c)) /\
       2 * idx + 2 <= Z.of_nat (length (list_ (sh c)))).
Proof.
  intros Hn Hstart Hsteps Hp.
  pose proof (Inv_round allreduce cs s c Hn Hstart Hsteps) as HI.
  pose proof (inv_S _ _ _ HI) as HS.
  pose proof (inv_thr _ _ _ HI _ _ Hp) as Ht.
  assert (forall idx, arrived (log c) t idx -> t ∈ departures (log c) ->
            0 <= idx /\ allreduce 2 (buffer (log c)) = inr (list_ (sh c)))
    as Hcommon.
  { intros idx Ha Hin. pose proof (token_range _ _ _ _ _ _ HS Ha).
    destruct (inv_post _ _ _ _ HS (elem_nonempty _ _ Hin))
      as (out & Ho & Hl & _).
    apply reduced_inr in Ho as [_ Ho]. rewrite Hl. split; [lia|done]. }
  split.
  - intros ->. simpl in Ht.
    destruct Ht as [(Hnin & _ & _ & Hr)|(Hin & _ & _ & idx & Ha & Hg)].
    { left. split; [done|]. by apply reduced_inl_IndexError in Hr. }
    right. split; [done|].
    destruct (Hcommon idx Ha Hin) as [Hi Ho]. exists idx.
    split; [done|]. split; [done|].
    destruct Hg as [Hg|Hg]; apply py_getitem_None in Hg; lia.
  - intros r ->. simpl in Ht. destruct Ht as (idx & Ha & Hin & _ & Hsl).
    destruct (Hcommon idx Ha Hin) as [Hi Ho]. exists idx.
    split; [done|]. split; [done|].
    unfold slice_of in Hsl. injection Hsl as _ H2.
    apply py_getitem_Some in H2; lia.
Qed.

(** X5. The calls make no endless run: whatever the threads of a
    configuration are doing, a run of [k] steps lowers the measure by at
    least [k]; so [n] calls that start together take at most
    [7 * n * (n + 1)] steps in all, sleeping and waking included. *)
Theorem X5_every_run_is_finite
    (c c' : config) (k : nat) :
  steps_n c k c' ->
  (k + measure c' <= measure c)%nat /\
  (forall s cs, c = start s cs ->
     (k <= 7 * length cs * (length cs + 1))%nat).
Proof.
  intros Hrun.
  assert (k + measure c' <= measure c)%nat as Hk.
  { induction Hrun as [|k c1 c2 tid _ IH Hs]; [lia|].
    pose proof (step_measure allreduce _ _ _ Hs). lia. }
  split; [done|]. intros s cs ->.
  assert (measure (start (Err:=Err) s cs) = (S (length cs) * (7 * length cs)))%nat
    as Hm.
  { unfold measure, start. simpl. rewrite length_fmap.
    assert (forall l : list (list V),
      sum_list (major <$> ((fun x => @Call V Err [x]) <$> l))
        = (7 * length l)%nat /\
      sum_list (minor <$> ((fun x => @Call V Err [x]) <$> l)) = 0%nat) as Hl.
    { induction l as [|x l [IH1 IH2]]; [done|]. split.
      - change (7 + sum_list (major <$> ((fun x => @Call V Err [x]) <$> l))
                = 7 * S (length l))%nat. lia.
      - change (0 + sum_list (minor <$> ((fun x => @Call V Err [x]) <$> l))
                = 0)%nat. lia. }
    destruct (Hl cs) as [-> ->]. lia. }
  rewrite Hm in Hk. nia.
Qed.

End Barriers.

(** * Callers that do not fit the object *)

Section Populations.

Context {V Err : Type}.
Variable allreduce : Z -> list V -> @exn Err + list V.

Definition is_call (p : @pc V Err) : nat :=
  match p with Call _ => 1 | _ => 0 end.

(** The threads that have not pushed yet. *)
Definition calls_left (c : @config V Err) : nat :=
  sum_list (is_call <$> thr c).

(** A thread of a round with too few callers: it is about to push, or it
    waits in the push phase and has never been notified. *)
Definition short_thread (p : @pc V Err) : Prop :=
  match p with
  | Call inputs => exists x, inputs = [x]
  | WaitPush Entering _ | WaitPush Sleeping _ => True
  | _ => False
  end.

(** The invariant of a round of [length cs] callers on an object built for
    [N] devices, [length cs < N]. *)
Record Short (cs : list (list V)) (N : Z) (c : @config V Err) : Prop := {
  short_len : length (thr c) = length cs;
  short_n : nGPUs (sh c) = N;
  short_thr : forall t p, thr c !! t = Some p -> short_thread p;
  short_push :
    (calls_left c = length cs /\ round_start (sh c)) \/
    ((calls_left c < length cs)%nat /\
     push_tasks (sh c) = N - Z.of_nat (length cs) + Z.of_nat (calls_left c));
  short_calls : reducer_calls (log c) = []
}.

(** The index that a thread holds is a position of the object. *)
Definition idx_in_range (n : Z) (p : @pc V Err) : Prop :=
  match p with
  | WaitPush _ idx | Pull idx | WaitReduce _ idx | Read idx | Read2 idx _ =>
      0 <= idx < n
  | _ => True
  end.

Record Ranged (n : Z) (c : @config V Err) : Prop := {
  ranged_n : nGPUs (sh c) = n;
  ranged_push : 0 <= push_tasks (sh c) <= n;
  ranged_thr : forall t p, thr c !! t = Some p -> idx_in_range n p;
  ranged_log : forall t i v, (t, i, v) ∈ arrivals (log c) -> 0 <= i < n
}.

(** A thread on an object built for no device. *)
Definition stuck_thread (s : @SharedTensor V) (p : @pc V Err) : Prop :=
  match p with
  | Call _ | Raised TypeError => True
  | WaitPush Entering _ | WaitPush Sleeping _ => push_tasks s < 0
  | _ => False
  end.

Record NoDevice (c : @config V Err) : Prop := {
  nodev_n : nGPUs (sh c) = 0;
  nodev_push : push_tasks (sh c) <= 0;
  nodev_thr : forall t p, thr c !! t = Some p -> stuck_thread (sh c) p;
  nodev_calls : reducer_calls (log c) = []
}.

Lemma is_call_le (l : list (@pc V Err)) :
  (sum_list (is_call <$> l) <= length l)%nat.
Proof.
  induction l as [|x l IH]; [simpl; lia|].
  change (is_call x + sum_list (is_call <$> l) <= S (length l))%nat.
  destruct x; simpl; lia.
Qed.

Lemma calls_left_lt (l : list (@pc V Err)) t p :
  l !! t = Some p -> is_call p = 0%nat ->
  (sum_list (is_call <$> l) < length l)%nat.
Proof.
  intros Hp Hc.
  pose proof (sum_insert is_call l t p (Call []) Hp) as Hs.
  pose proof (is_call_le (<[t:=Call []]> l)) as Hle.
  rewrite length_insert in Hle. simpl in Hs. lia.
Qed.

Lemma lookup_insert_cases (l : list (@pc V Err)) tid q t p :
  (tid < length l)%nat -> <[tid:=q]> l !! t = Some p ->
  (t = tid /\ p = q) \/ (t <> tid /\ l !! t = Some p).
Proof.
  intros Hlt Hp. destruct (decide (t = tid)) as [->|Hne].
  - rewrite list_lookup_insert_eq in Hp by done. left. by simplify_eq.
  - rewrite list_lookup_insert_ne in Hp by done. by right.
Qed.

Lemma Short_start cs N s :
  nGPUs s = N -> round_start s -> Short cs N (start s cs).
Proof.
  intros Hn Hs. constructor; simpl; try done.
  - apply length_fmap.
  - intros t p Hp. rewrite list_lookup_fmap in Hp.
    destruct (cs !! t); simplify_eq/=. eauto.
  - left. split; [|done]. unfold calls_left. simpl.
    induction cs as [|x l IH]; [done|].
    change (1 + sum_list (is_call <$> ((fun x => @Call V Err [x]) <$> l))
            = S (length l))%nat.
    by rewrite IH.
Qed.

Lemma Short_step cs N c tid c' :
  Z.of_nat (length cs) < N ->
  Short cs N c -> step allreduce tid c = Some c' -> Short cs N c'.
Proof.
  intros HN HU (p & o & Hp & Ho & ->)%step_inv.
  destruct HU as [Hlen Hn Hthr Hpush Hcalls].
  pose proof (Hthr _ _ Hp) as Hsp.
  assert (tid < length (thr c))%nat as Hlt by (by eapply lookup_lt_Some).
  unfold calls_left in *.
  destruct p as [inputs|[]|idx|w idx|idx|idx a|r|e]; try done; simpl in *.
  - (* the push *)
    destruct Hsp as [x ->]. simpl in Ho. simplify_eq.
    set (s1 := if push_tasks (sh c) =? 0 then _clear (sh c) else sh c).
    pose proof (sum_insert is_call (thr c) tid _
                  (WaitPush Entering (nGPUs s1 - push_tasks s1)) Hp) as Hsum.
    simpl in Hsum.
    assert (push_tasks s1 - 1 =
            nGPUs (sh c) - Z.of_nat (length cs) +
            Z.of_nat (sum_list (is_call <$>
              <[tid:=WaitPush Entering (nGPUs s1 - push_tasks s1)]> (thr c))))
      as Hpt'.
    { set (m := sum_list (is_call <$> <[tid:=_]> (thr c))) in *.
      clearbody m. unfold s1. clear s1.
      destruct Hpush as [[Hall Hr]|[Hlt' Hpt]].
      - destruct (push_tasks (sh c) =? 0) eqn:Hz; simpl; [lia|].
        apply Z.eqb_neq in Hz. destruct Hr as [Hr|Hr]; [|done].
        rewrite Hr in *. simpl in *. lia.
      - replace (push_tasks (sh c) =? 0) with false
          by (symmetry; apply Z.eqb_neq; lia).
        lia. }
    constructor; simpl.
    + by rewrite length_insert.
    + unfold s1. by destruct (push_tasks (sh c) =? 0).
    + intros t p Hq.
      apply lookup_insert_cases in Hq as [[_ ->]|[_ Hq]]; [done| |done].
      by eapply Hthr.
    + right. unfold calls_left. simpl. split; [lia|done].
    + rewrite reducer_calls_app, Hcalls. done.
  - (* the wait: [push_tasks] is not zero *)
    pose proof (calls_left_lt _ _ _ Hp eq_refl) as Hcl.
    assert (push_tasks (sh c) <> 0) as Hnz.
    { destruct Hpush as [[Hall _]|[_ Hpt]]; lia. }
    apply Z.eqb_neq in Hnz. rewrite Hnz in Ho. simplify_eq.
    pose proof (sum_insert is_call (thr c) tid _ (WaitPush Sleeping idx) Hp)
      as Hsum.
    simpl in Hsum.
    constructor; simpl; rewrite ?app_nil_r; try done.
    + by rewrite length_insert.
    + intros t p Hq.
      apply lookup_insert_cases in Hq as [[_ ->]|[_ Hq]]; [done| |done].
      by eapply Hthr.
    + unfold calls_left. simpl.
      replace (sum_list (is_call <$> <[tid:=WaitPush Sleeping idx]> (thr c)))
        with (sum_list (is_call <$> thr c)) by lia.
      done.
Qed.

Lemma Short_steps cs N c c' :
  Z.of_nat (length cs) < N ->
  Short cs N c -> steps allreduce c c' -> Short cs N c'.
Proof. intros HN HU. induction 1; eauto using Short_step. Qed.

Lemma Short_sleeps cs N c :
  Z.of_nat (length cs) < N -> Short cs N c ->
  exists c', steps allreduce c c' /\
    (forall t, (t < length cs)%nat ->
       exists idx, thr c' !! t = Some (WaitPush Sleeping idx)) /\
    forall t, step allreduce t c' = None.
Proof.
  intros HN. remember (measure c) as k eqn:Hk. revert c Hk.
  induction (lt_wf k) as [k _ IH]. intros c -> HU.
  destruct (decide (Exists (fun p => sleeping p = false) (thr c)))
    as [He|Hne].
  - apply Exists_exists in He as (p & Hp & Hs).
    apply list_elem_of_lookup in Hp as [t Hp].
    assert (finished p = false) as Hf.
    { pose proof (short_thr _ _ _ HU _ _ Hp). by destruct p. }
    destruct (runnable_step allreduce c t p Hp Hs Hf) as [c1 Hc1].
    destruct (IH (measure c1) (step_measure allreduce _ _ _ Hc1) c1 eq_refl)
      as (c' & Hs' & Hall); [by eapply Short_step|].
    exists c'. split; [|done]. by eapply steps_cons.
  - apply not_Exists_Forall in Hne; [|intros x; apply _].
    rewrite Forall_forall in Hne.
    assert (forall t p, thr c !! t = Some p ->
              exists idx, p = WaitPush Sleeping idx) as Hall.
    { intros t p Hp. pose proof (short_thr _ _ _ HU _ _ Hp) as Hsp.
      specialize (Hne p). simpl in Hne.
      destruct p as [|[] idx| | | | | |]; try done; eauto;
        exfalso; apply Hne; try done; apply list_elem_of_lookup; eauto. }
    exists c. split; [apply steps_refl|]. split.
    + intros t Ht. rewrite <- (short_len _ _ _ HU) in Ht.
      apply lookup_lt_is_Some in Ht as [p Hp].
      destruct (Hall _ _ Hp) as [idx ->]. eauto.
    + intros t. unfold step. destruct (thr c !! t) as [p|] eqn:Hp; [|done].
      by destruct (Hall _ _ Hp) as [idx ->].
Qed.

(** X6. With fewer callers than devices nobody gets through: in a round
    of [length cs < nGPUs] callers no thread ever leaves the wait of the
    push phase, so no caller returns or raises and the reducer is never
    called; and the threads can always run on until every one of them
    sleeps in that wait, where no thread can take a step. *)
Theorem X6_too_few_callers_block_forever
    (cs : list (list V)) (s : SharedTensor) (c : config) :
  Z.of_nat (length cs) < nGPUs s ->
  round_start s ->
  steps allreduce (start s cs) c ->
  (forall t p, thr c !! t = Some p -> past_push p = false) /\
  (forall t w idx, thr c !! t = Some (WaitPush w idx) ->
     0 < push_tasks (sh c)) /\
  reducer_calls (log c) = [] /\
  exists c', steps allreduce c c' /\
    (forall t, (t < length cs)%nat ->
       exists idx, thr c' !! t = Some (WaitPush Sleeping idx)) /\
    forall t, step allreduce t c' = None.
Proof.
  intros HN Hstart Hsteps.
  pose proof (Short_steps cs (nGPUs s) _ _ HN
                (Short_start cs (nGPUs s) s eq_refl Hstart) Hsteps) as HU.
  split; [|split; [|split]].
  - intros t p Hp. pose proof (short_thr _ _ _ HU _ _ Hp) as Hsp.
    by destruct p as [|[]| | | | | |].
  - intros t w idx Hp.
    pose proof (calls_left_lt _ _ _ Hp eq_refl) as Hcl.
    fold (calls_left c) in Hcl. rewrite (short_len _ _ _ HU) in Hcl.
    destruct (short_push _ _ _ HU) as [[Hall _]|[_ Hpt]]; lia.
  - apply (short_calls _ _ _ HU).
  - by apply (Short_sleeps cs (nGPUs s)).
Qed.

End Populations.

(** * Any number of callers, any schedule *)

Section AnyCallers.

Context {V Err : Type}.
Variable allreduce : Z -> list V -> @exn Err + list V.

Lemma py_getitem_nonneg {A} (l : list A) (i : Z) :
  0 <= i -> py_getitem l i = l !! Z.to_nat i.
Proof.
  intros Hi. unfold py_getitem.
  replace (0 <=? i) with true by (symmetry; apply Z.leb_le; lia).
  destruct (i <? Z.of_nat (length l)) eqn:Hlt; simpl; [done|].
  apply Z.ltb_ge in Hlt.
  replace (i <? 0) with false by (symmetry; apply Z.ltb_ge; lia).
  rewrite andb_false_r. symmetry. apply lookup_ge_None. lia.
Qed.

Lemma idx_in_range_wake n (p : @pc V Err) :
  idx_in_range n p -> idx_in_range n (wake p).
Proof. by destruct p as [|[]| |[]| | | |]. Qed.

Lemma exec_ranged n tid (s : @SharedTensor V) (p : @pc V Err) o :
  1 <= n -> nGPUs s = n -> 0 <= push_tasks s <= n -> idx_in_range n p ->
  exec allreduce tid s p = Some o ->
  nGPUs (o_sh o) = n /\ 0 <= push_tasks (o_sh o) <= n /\
  idx_in_range n (o_pc o) /\
  forall t i v, (t, i, v) ∈ arrivals (o_ev o) -> 0 <= i < n.
Proof.
  intros Hn HN Hp Hidx Ho.
  assert (forall t i v, (t, i, v) ∈ arrivals (@nil (@event V)) -> 0 <= i < n)
    as Hnil by (by intros ? ? ? ?%elem_of_nil).
  destruct p as [inputs|[]|idx|[]|idx|idx a|r|e]; simpl in Ho; try done;
    repeat case_match; simplify_eq/=; try done;
    repeat match goal with
           | H : (_ =? _) = true |- _ => apply Z.eqb_eq in H
           | H : (_ =? _) = false |- _ => apply Z.eqb_neq in H
           end;
    repeat split; try done; try lia.
  all: match goal with
       | Hin : _ ∈ _ |- _ =>
           cbn in Hin;
           first [ by apply elem_of_nil in Hin
                 | apply list_elem_of_singleton in Hin; simplify_eq; lia ]
       end.
Qed.

Lemma Ranged_act n a (c c' : @config V Err) :
  1 <= n -> Ranged n c -> act allreduce a c = Some c' -> Ranged n c'.
Proof.
  intros Hn [HN Hp Hthr Hlog] Hact. destruct a as [tid|inputs|tid inputs];
    simpl in Hact.
  - apply step_inv in Hact as (p & o & Hq & Ho & ->).
    destruct (exec_ranged n tid _ _ _ Hn HN Hp (Hthr _ _ Hq) Ho)
      as (H1 & H2 & H3 & H4).
    constructor; simpl; try done.
    + intros t q Hq'.
      destruct (lookup_after _ _ _ _ _ _ Hq (exec_notify _ _ _ _ _ Ho) Hq')
        as [[_ ->]|(_ & q0 & Hq0 & ->)]; [done|].
      destruct (o_notify o); [apply idx_in_range_wake|]; by eapply Hthr.
    + intros t i v. rewrite arrivals_app. intros [Hin|Hin]%elem_of_app; eauto.
  - simplify_eq. constructor; simpl; try done.
    intros t p [Hq|[_ Hq]]%lookup_app_Some; [by eapply Hthr|].
    apply list_lookup_singleton_Some in Hq as [_ <-]. done.
  - destruct (thr c !! tid) as [[]|] eqn:Hq; simplify_eq.
    constructor; simpl; try done.
    intros t p [(_ & <- & _)|[_ Hq']]%list_lookup_insert_Some; [done|].
    by eapply Hthr.
Qed.

Lemma Ranged_play n sched (c : @config V Err) :
  1 <= n -> Ranged n c -> Ranged n (play allreduce sched c).
Proof.
  intros Hn. revert c. induction sched as [|a sched IH]; intros c HR; [done|].
  simpl. destruct (act allreduce a c) as [c'|] eqn:Ha; eauto using Ranged_act.
Qed.

(** X8. On an object built for [n >= 1] devices, whatever the number of
    callers, their arguments and the schedule: [len] of the object stays
    [n], [push_tasks] stays between 0 and [n], every token is in
    [[0, n)]; so the reads of line 165 never use a negative index, which
    Python would count from the end of the buffer. *)
Theorem X8_tokens_stay_in_range (n : Z) (sched : list (@action V)) :
  1 <= n ->
  __len__ (sh (play allreduce sched (built n))) = n /\
  0 <= push_tasks (sh (play allreduce sched (built n))) <= n /\
  (forall t i v,
     (t, i, v) ∈ arrivals (log (play allreduce sched (built n))) ->
     0 <= i < n) /\
  (forall t idx,
     thr (play allreduce sched (built n)) !! t = Some (Read idx) ->
     0 <= idx < n /\
     forall l : list V, py_getitem l (2 * idx) = l !! Z.to_nat (2 * idx)) /\
  (forall t idx a,
     thr (play allreduce sched (built n)) !! t = Some (Read2 idx a) ->
     0 <= idx < n /\
     forall l : list V,
       py_getitem l (2 * idx + 1) = l !! Z.to_nat (2 * idx + 1)).
Proof.
  intros Hn.
  assert (Ranged n (built n : @config V Err)) as H0.
  { constructor; simpl; try done; try lia.
    intros ? ? ? ?%elem_of_nil. done. }
  destruct (Ranged_play n sched _ Hn H0) as [HN Hp Hthr Hlog].
  split; [done|]. split; [done|]. split; [done|]. split.
  - intros t idx Hq. pose proof (Hthr _ _ Hq) as Hi. simpl in Hi.
    split; [done|]. intros l. apply py_getitem_nonneg. lia.
  - intros t idx a Hq. pose proof (Hthr _ _ Hq) as Hi. simpl in Hi.
    split; [done|]. intros l. apply py_getitem_nonneg. lia.
Qed.

Lemma stuck_thread_mono (s s' : @SharedTensor V) (p : @pc V Err) :
  (push_tasks s < 0 -> push_tasks s' < 0) ->
  stuck_thread s p -> stuck_thread s' p.
Proof. intros H. destruct p as [|[]| | | | | |]; simpl; auto. Qed.

Lemma NoDevice_act a (c c' : @config V Err) :
  NoDevice c -> act allreduce a c = Some c' -> NoDevice c'.
Proof.
  intros [HN Hp Hthr Hcalls] Hact. destruct a as [tid|inputs|tid inputs];
    simpl in Hact.
  - apply step_inv in Hact as (p & o & Hq & Ho & ->).
    pose proof (Hthr _ _ Hq) as Hst.
    assert (tid < length (thr c))%nat as Hlt by (by eapply lookup_lt_Some).
    destruct p as [inputs|[]|idx|w idx|idx|idx a|r|e]; try done;
      simpl in Ho, Hst.
    + (* the push *)
      set (s1 := if push_tasks (sh c) =? 0 then _clear (sh c) else sh c)
        in *.
      assert (nGPUs s1 = 0 /\ push_tasks s1 <= 0 /\
              (push_tasks (sh c) < 0 -> push_tasks s1 < 0)) as (H1 & H2 & H3).
      { unfold s1. destruct (push_tasks (sh c) =? 0) eqn:Hz; simpl;
          [apply Z.eqb_eq in Hz|]; repeat split; lia. }
      destruct (py_list_star inputs) as [vals|]; simplify_eq; simpl.
      * constructor; simpl; try done; try lia.
        -- intros t p Hq'. apply lookup_insert_cases in Hq'; [|done].
           destruct Hq' as [[_ ->]|[_ Hq']]; [simpl; lia|].
           eapply stuck_thread_mono; [|by eapply Hthr]. simpl. lia.
        -- by rewrite reducer_calls_app, Hcalls.
      * constructor; simpl; rewrite ?app_nil_r; try done.
        intros t p Hq'. apply lookup_insert_cases in Hq'; [|done].
        destruct Hq' as [[_ ->]|[_ Hq']]; [done|].
        eapply stuck_thread_mono; [|by eapply Hthr]. done.
    + (* the wait: [push_tasks] is negative *)
      replace (push_tasks (sh c) =? 0) with false in Ho
        by (symmetry; apply Z.eqb_neq; lia).
      simplify_eq. constructor; simpl; rewrite ?app_nil_r; try done.
      intros t p Hq'. apply lookup_insert_cases in Hq'; [|done].
      destruct Hq' as [[_ ->]|[_ Hq']]; [simpl; lia|].
      by eapply Hthr.
  - simplify_eq. constructor; simpl; try done.
    intros t p [Hq|[_ Hq]]%lookup_app_Some; [by eapply Hthr|].
    apply list_lookup_singleton_Some in Hq as [_ <-]. done.
  - destruct (thr c !! tid) as [[]|] eqn:Hq; simplify_eq.
    by pose proof (Hthr _ _ Hq).
Qed.

Lemma NoDevice_play sched (c : @config V Err) :
  NoDevice c -> NoDevice (play allreduce sched c).
Proof.
  revert c. induction sched as [|a sched IH]; intros c HR; [done|].
  simpl. destruct (act allreduce a c) as [c'|] eqn:Ha; eauto using NoDevice_act.
Qed.

(** X7. On an object built for no device ([torch.cuda.device_count()]
    is 0) no call gets through, whatever the number of callers, their
    arguments and the schedule: the first push makes [push_tasks]
    negative, so no thread leaves the wait of the push phase, no call
    returns, and the reducer is never called; the only calls that end are
    those that raise [TypeError] for their arguments. *)
Theorem X7_no_device_no_call_returns (sched : list (@action V)) :
  push_tasks (sh (play allreduce sched (built 0))) <= 0 /\
  reducer_calls (log (play allreduce sched (built 0))) = [] /\
  (forall t w idx,
     thr (play allreduce sched (built 0)) !! t = Some (WaitPush w idx) ->
     push_tasks (sh (play allreduce sched (built 0))) < 0 /\ w <> Woken) /\
  (forall t p,
     thr (play allreduce sched (built 0)) !! t = Some p ->
     past_push p = true -> p = Raised TypeError).
Proof.
  assert (NoDevice (built 0 : @config V Err)) as H0.
  { constructor; simpl; try done. }
  destruct (NoDevice_play sched _ H0) as [HN Hp Hthr Hcalls].
  split; [done|]. split; [done|]. split.
  - intros t w idx Hq. pose proof (Hthr _ _ Hq) as Hst.
    by destruct w; simpl in Hst.
  - intros t p Hq Hpast. pose proof (Hthr _ _ Hq) as Hst.
    destruct p as [|[]| | | | | |[]]; try done.
Qed.

End AnyCallers.

(** * Rounds that are joined before the next one starts *)

Section JoinedRounds.

Context {V Err : Type}.
Variable allreduce : Z -> list V -> @exn Err + list V.

(** [joined s rounds cfgs]: the rounds are played one after the other on
    the object [s], each by new calls of all the callers, and no call of a
    round starts before all the calls of the round before have ended;
    [cfgs] are the configurations in which the rounds end. *)
Inductive joined (s : @SharedTensor V) :
    list (list (list V)) -> list (@config V Err) -> Prop :=
| joined_nil : joined s [] []
| joined_cons cs rounds c cfgs :
    steps allreduce (start s cs) c ->
    all_finished c ->
    joined (sh c) rounds cfgs ->
    joined s (cs :: rounds) (c :: cfgs).

(** A round of [n] callers with two values each. *)
Definition round_ok (n : nat) (cs : list (list V)) : Prop :=
  length cs = n /\ Forall (fun x => length x = 2%nat) cs.

Lemma finished_round_ready (cs : list (list V)) s c :
  cs <> [] -> nGPUs s = Z.of_nat (length cs) -> round_start s ->
  steps allreduce (start s cs) c -> all_finished c ->
  nGPUs (sh c) = Z.of_nat (length cs) /\ round_start (sh c).
Proof.
  intros Hne Hn Hstart Hsteps Hfin.
  pose proof (Inv_round allreduce cs s c Hn Hstart Hsteps) as HI.
  pose proof (inv_S _ _ _ HI) as HS.
  split; [by apply (inv_n _ _ _ _ HS)|]. right.
  assert (is_Some (thr c !! 0%nat)) as [p Hp].
  { apply lookup_lt_is_Some. rewrite (inv_len _ _ _ HI).
    destruct cs; simpl; [done|lia]. }
  destruct (finished_departed allreduce cs c _ p HI Hp (Hfin _ _ Hp))
    as [Hd|(e & _ & Hz & _)]; [|done].
  by destruct (departures_arrivals allreduce cs _ _ HS (elem_nonempty _ _ Hd))
    as (_ & ? & _).
Qed.

(** X9. Rounds of [n >= 1] callers that are joined can follow each
    other without bound on one object: with a reducer that combines the
    groups, every caller of every round returns the combination of the
    contributions of its own round, whatever was left in the object by
    the rounds before and whatever the interleaving inside each round;
    and the rounds can always be played to their end. *)
Theorem X9_joined_rounds_are_independent
    (comb : list V -> V) (n : nat) (rounds : list (list (list V)))
    (s : SharedTensor) :
  (1 <= n)%nat ->
  nGPUs s = Z.of_nat n ->
  round_start s ->
  Forall (round_ok n) rounds ->
  symmetric comb ->
  reducer_combines allreduce comb n ->
  (forall cfgs, joined s rounds cfgs ->
     Forall2 (fun cs c =>
                forall t, (t < n)%nat ->
                  thr c !! t =
                    Some (Returned (comb (column 0 cs), comb (column 1 cs))))
             rounds cfgs) /\
  (exists cfgs, joined s rounds cfgs).
Proof.
  intros Hn HN Hstart Hrounds Hsym Hcomb. revert s HN Hstart.
  induction Hrounds as [|cs rounds [Hlen Hcs] _ IH]; intros s HN Hstart.
  - split; [|exists []; constructor].
    intros cfgs Hj. inversion Hj. constructor.
  - assert (cs <> []) as Hne by (destruct cs; simpl in *; [lia|done]).
    rewrite <- Hlen in HN, Hcomb.
    split.
    + intros cfgs Hj. inversion Hj as [|? ? c cfgs' Hsteps Hfin Hj']; subst.
      destruct (finished_round_ready cs s c Hne HN Hstart Hsteps Hfin)
        as [HN' Hstart'].
      constructor.
      * intros t Ht.
        pose proof (Inv_round allreduce cs s c HN Hstart Hsteps) as HI.
        rewrite <- (inv_len _ _ _ HI) in Ht.
        apply lookup_lt_is_Some in Ht as [p Hp]. rewrite Hp. f_equal.
        eapply combined_results; eauto.
      * by apply (IH (sh c)).
    + pose proof (Inv_start allreduce cs s HN Hstart) as HI0.
      destruct (Inv_completes allreduce cs _ HI0) as (c & Hsteps & Hfin).
      destruct (finished_round_ready cs s c Hne HN Hstart Hsteps Hfin)
        as [HN' Hstart'].
      rewrite Hlen in HN'.
      destruct (IH (sh c) HN' Hstart') as [_ [cfgs Hj]].
      exists (c :: cfgs). by constructor.
Qed.

End JoinedRounds.

(** * The ranks of the inputs *)

From Stdlib Require String DecimalString.

Module Ranks.

Import String.

(** [str(n)] for an integer [n]. *)
Definition py_str_int (n : Z) : String.string :=
  DecimalString.NilZero.string_of_int (Z.to_int n).

Inductive batchnorm : Type := BatchNorm1d | BatchNorm2d | BatchNorm3d.

(** [_check_input_dim] of the three classes, on [dim = input.dim()]:
    [Some msg] when it raises [ValueError(msg)]. *)
Definition _check_input_dim (cls : batchnorm) (dim : Z)
  : option String.string :=
  match cls with
  | BatchNorm1d =>
      if negb (dim =? 2) && negb (dim =? 3)
      then Some (String.append "expected 2D or 3D input (got "%string
                   (String.append (py_str_int dim) "D input)"%string))
      else None
  | BatchNorm2d =>
      if negb (dim =? 4)
      then Some (String.append "expected 4D input (got "%string
                   (String.append (py_str_int dim) "D input)"%string))
      else None
  | BatchNorm3d =>
      if negb (dim =? 5)
      then Some (String.append "expected 5D input (got "%string
                   (String.append (py_str_int dim) "D input)"%string))
      else None
  end.

(** X10. The three classes accept inputs of different ranks: rank 2 or
    3 for [BatchNorm1d], 4 for [BatchNorm2d], 5 for [BatchNorm3d]; no rank
    passes the check of two classes, and a rank below 2 or above 5 raises
    [ValueError] in all three. *)
Theorem X10_classes_accept_disjoint_ranks (dim : Z) :
  (_check_input_dim BatchNorm1d dim = None <-> dim = 2 \/ dim = 3) /\
  (_check_input_dim BatchNorm2d dim = None <-> dim = 4) /\
  (_check_input_dim BatchNorm3d dim = None <-> dim = 5) /\
  (forall cls cls',
     _check_input_dim cls dim = None -> _check_input_dim cls' dim = None ->
     cls = cls') /\
  (dim < 2 \/ 5 < dim ->
   forall cls, exists msg, _check_input_dim cls dim = Some msg).
Proof.
  assert (_check_input_dim BatchNorm1d dim = None <-> dim = 2 \/ dim = 3)
    as H1.
  { unfold _check_input_dim.
    destruct (dim =? 2) eqn:E2, (dim =? 3) eqn:E3; simpl;
      rewrite ?Z.eqb_eq, ?Z.eqb_neq in *; split; intros; try done; lia. }
  assert (_check_input_dim BatchNorm2d dim = None <-> dim = 4) as H2.
  { unfold _check_input_dim. destruct (dim =? 4) eqn:E; simpl;
      rewrite ?Z.eqb_eq, ?Z.eqb_neq in *; split; intros; try done; lia. }
  assert (_check_input_dim BatchNorm3d dim = None <-> dim = 5) as H3.
  { unfold _check_input_dim. destruct (dim =? 5) eqn:E; simpl;
      rewrite ?Z.eqb_eq, ?Z.eqb_neq in *; split; intros; try done; lia. }
  split; [done|]. split; [done|]. split; [done|]. split.
  - intros [] [] Ha Hb; try done;
      rewrite ?H1, ?H2, ?H3 in Ha; rewrite ?H1, ?H2, ?H3 in Hb; lia.
  - intros Hd cls.
    destruct (_check_input_dim cls dim) as [msg|] eqn:E; [eauto|].
    destruct cls; rewrite ?H1, ?H2, ?H3 in E; lia.
Qed.

End Ranks.

(** * The two callers again *)

Lemma X1_witness :
  steps allreduce_sum (start (__init__ 2) round2) final2 /\
  thr final2 !! 0%nat = Some (Returned (30, 20)) /\
  push_tasks (sh final2) = 0 /\
  (arrivals (log final2)).*2 ≡ₚ round2.
Proof.
  pose proof (X1_nobody_passes_before_all_have_pushed allreduce_sum round2
                (__init__ 2) final2 0%nat (Returned (30, 20)) eq_refl
                start2_fresh steps_final2 eq_refl eq_refl)
    as (H1 & _ & _ & H2 & _).
  split; [apply steps_final2|]. split; [reflexivity|]. split; [exact H1|].
  exact H2.
Defined.

Lemma X2_witness :
  steps allreduce_sum (start (__init__ 2) round2) final2 /\
  thr final2 !! 1%nat = Some (Returned (30, 20)) /\
  reduce_tasks (sh final2) = 0 /\
  departures (log final2) ≡ₚ [0; 1]%nat.
Proof.
  pose proof (X2_nobody_reads_before_all_have_pulled allreduce_sum round2
                (__init__ 2) final2 1%nat (Returned (30, 20)) eq_refl
                start2_fresh steps_final2 eq_refl eq_refl)
    as (H1 & H2 & _).
  split; [apply steps_final2|]. split; [reflexivity|]. split; [exact H1|].
  exact H2.
Defined.

Lemma X3_witness :
  steps allreduce_sum (start (__init__ 2) round2) final2 /\
  thr final2 !! 1%nat = Some (Returned (30, 20)) /\
  exists (k : nat) (x out : list Z),
    arrivals (log final2) !! k = Some (1%nat, Z.of_nat k, x) /\
    round2 !! 1%nat = Some x /\
    allreduce_sum 2 (concat (arrivals (log final2)).*2) = inr out /\
    out !! (2 * k)%nat = Some 30 /\ out !! (2 * k + 1)%nat = Some 20.
Proof.
  split; [apply steps_final2|]. split; [reflexivity|].
  apply (X3_result_is_the_slice_of_the_arrival allreduce_sum round2
           (__init__ 2) final2 1%nat (30, 20) eq_refl start2_fresh
           steps_final2 eq_refl).
Defined.

(** A reducer that returns the first two of the values that it is
    given. *)
Definition allreduce_short (arity : Z) (l : list Z)
  : @exn Empty_set + list Z :=
  inr (take 2 l).

(** With the reducer that sums, thread 1 returns; with the reducer that
    returns two values only, thread 1, whose token is 1, raises
    [IndexError] at line 165. *)
Lemma X4_witness :
  let c := run allreduce_short sched2 (start (__init__ 2) round2) in
  steps allreduce_sum (start (__init__ 2) round2) final2 /\
  thr final2 !! 1%nat = Some (Returned (30, 20)) /\
  (exists idx, arrived (log final2) 1%nat idx /\
     allreduce_sum 2 (buffer (log final2)) = inr (list_ (sh final2)) /\
     2 * idx + 2 <= Z.of_nat (length (list_ (sh final2)))) /\
  thr c = [Returned (10, 4); Raised IndexError] /\
  list_ (sh c) = [10; 4] /\
  (((1%nat ∉ departures (log c)) /\
    allreduce_short 2 (buffer (log c)) = inl IndexError) \/
   (1%nat ∈ departures (log c) /\
    exists idx, arrived (log c) 1%nat idx /\
      allreduce_short 2 (buffer (log c)) = inr (list_ (sh c)) /\
      Z.of_nat (length (list_ (sh c))) < 2 * idx + 2)).
Proof.
  pose proof (X4_index_error_when_the_result_is_short allreduce_sum round2
                (__init__ 2) final2 1%nat (Returned (30, 20)) eq_refl
                start2_fresh steps_final2 eq_refl) as [_ H].
  pose proof (X4_index_error_when_the_result_is_short allreduce_short round2
                (__init__ 2) _ 1%nat (Raised IndexError) eq_refl
                start2_fresh (steps_run allreduce_short sched2 _) eq_refl)
    as [H' _].
  split; [apply steps_final2|]. split; [reflexivity|].
  split; [apply (H (30, 20) eq_refl)|].
  split; [reflexivity|]. split; [reflexivity|]. apply (H' eq_refl).
Defined.

Lemma X5_witness :
  exists c1,
    steps_n allreduce_sum (start (__init__ 2) round2) 1 c1 /\
    (1 + measure c1 <= measure (start (Err:=Empty_set) (__init__ 2) round2))%nat /\
    (1 <= 7 * length round2 * (length round2 + 1))%nat.
Proof.
  assert (steps_n allreduce_sum (start (__init__ 2) round2) 1
            (run allreduce_sum [0%nat] (start (__init__ 2) round2))) as H.
  { apply (steps_n_S allreduce_sum _ 0 _ _ 0%nat (steps_n_O _ _)).
    reflexivity. }
  exists (run allreduce_sum [0%nat] (start (__init__ 2) round2)).
  destruct (X5_every_run_is_finite allreduce_sum _ _ _ H) as [H1 H2].
  split; [exact H|]. split; [exact H1|]. exact (H2 _ _ eq_refl).
Defined.

Lemma X6_witness :
  Z.of_nat (length round2) < nGPUs (__init__ 3 : @SharedTensor Z) /\
  exists c',
    steps allreduce_sum (start (__init__ 3) round2) c' /\
    (forall t, (t < length round2)%nat ->
       exists idx, thr c' !! t = Some (WaitPush Sleeping idx)) /\
    forall t, step allreduce_sum t c' = None.
Proof.
  assert (Z.of_nat (length round2) < nGPUs (__init__ 3 : @SharedTensor Z))
    as Hlt by reflexivity.
  split; [exact Hlt|].
  apply (X6_too_few_callers_block_forever allreduce_sum round2 (__init__ 3)
           (start (__init__ 3) round2) Hlt (or_introl eq_refl)
           (steps_refl _ _)).
Defined.

(** Two threads are started on an object built for two devices and call
    it with [[10, 4]] and [[20, 16]]; thread 1 reduces; thread 0 has read
    its first value, thread 1 is about to read. *)
Definition sched_two_readers : list (@action Z) :=
  [Spawn ([[10; 4]]%Z); Spawn ([[20; 16]]%Z); Run 0; Run 0; Run 1; Run 1;
   Run 1; Run 1; Run 0; Run 0; Run 0; Run 0; Run 1]%nat.

Lemma X8_witness :
  let c := play allreduce_sum sched_two_readers (built 2) in
  1 <= 2 /\
  thr c = [Read2 0 30; Read 1] /\
  arrivals (log c) = [(0%nat, 0, [10; 4]); (1%nat, 1, [20; 16])] /\
  __len__ (sh c) = 2 /\
  0 <= push_tasks (sh c) <= 2 /\
  (forall t i v, (t, i, v) ∈ arrivals (log c) -> 0 <= i < 2) /\
  (0 <= 1 < 2 /\
   forall l : list Z, py_getitem l (2 * 1) = l !! Z.to_nat (2 * 1)) /\
  (0 <= 0 < 2 /\
   forall l : list Z, py_getitem l (2 * 0 + 1) = l !! Z.to_nat (2 * 0 + 1)).
Proof.
  assert (1 <= 2) as Hn by lia.
  destruct (X8_tokens_stay_in_range allreduce_sum 2 sched_two_readers Hn)
    as (H1 & H2 & H3 & H4 & H5).
  split; [exact Hn|]. split; [reflexivity|]. split; [reflexivity|].
  split; [exact H1|]. split; [exact H2|]. split; [exact H3|].
  split; [apply (H4 1%nat 1); reflexivity|].
  apply (H5 0%nat 0 30); reflexivity.
Defined.

Lemma X9_witness :
  (1 <= 2)%nat /\
  Forall (round_ok 2) [round2; round2] /\
  exists cfgs : list (@config Z Empty_set),
    joined allreduce_sum (__init__ 2) [round2; round2] cfgs.
Proof.
  assert (1 <= 2)%nat as Hn by lia.
  assert (Forall (@round_ok Z 2) [round2; round2]) as Hr.
  { repeat constructor. }
  split; [exact Hn|]. split; [exact Hr|].
  apply (X9_joined_rounds_are_independent allreduce_sum sumZ 2
           [round2; round2] (__init__ 2) Hn eq_refl start2_fresh Hr
           sumZ_symmetric (allreduce_sum_combines 2)).
Defined.

(** * How a round ends *)

Section Outcomes.

Context {V Err : Type}.
Variable allreduce : Z -> list V -> @exn Err + list V.

(** X11. A round of exactly [nGPUs >= 1] calls, each with one
    argument, an iterable of any length, on an object that is ready for
    a round and that receives no other call until the round is over, with
    a reducer that is a function of its arguments: no configuration that
    the calls reach is stuck, the callers can always all leave the call,
    and when they have, they have all ended in the same way.  Either the
    first pull failed and every caller raised its error ([AssertionError]
    for a buffer of the wrong length, else the exception of the reducer),
    or the reducer returned and every caller got the two values at its
    token, or [IndexError] where the result is too short for its token. *)
Theorem X11_a_round_ends_the_same_way_for_all
    (cs : list (list V)) (s : SharedTensor) (c : config) :
  cs <> [] ->
  nGPUs s = Z.of_nat (length cs) ->
  round_start s ->
  steps allreduce (start s cs) c ->
  (all_finished c \/ exists t c', step allreduce t c = Some c') /\
  (exists c', steps allreduce c c' /\ all_finished c') /\
  (all_finished c ->
   match reduced allreduce (Z.of_nat (length cs)) (buffer (log c)) with
   | inl e =>
       forall t, (t < length cs)%nat -> thr c !! t = Some (Raised e)
   | inr out =>
       list_ (sh c) = out /\
       forall t, (t < length cs)%nat ->
         exists idx, arrived (log c) t idx /\
           thr c !! t = Some (outcome_of_slice (slice_of (sh c) idx))
   end).
Proof.
  intros Hne Hn Hstart Hsteps.
  pose proof (Inv_round allreduce cs s c Hn Hstart Hsteps) as HI.
  pose proof (inv_S _ _ _ HI) as HS.
  split; [by apply (Inv_progress allreduce cs)|].
  split; [by apply (Inv_completes allreduce cs)|].
  intros Hfin.
  assert (forall t, (t < length cs)%nat ->
            exists p, thr c !! t = Some p /\ finished p = true) as Hall.
  { intros t Ht. rewrite <- (inv_len _ _ _ HI) in Ht.
    apply lookup_lt_is_Some in Ht as [p Hp]. eauto. }
  destruct (reduced allreduce (Z.of_nat (length cs)) (buffer (log c)))
    as [e|out] eqn:Hred.
  - intros t Ht. destruct (Hall t Ht) as (p & Hp & Hf). rewrite Hp. f_equal.
    destruct (finished_departed allreduce cs c t p HI Hp Hf)
      as [Hd|(e' & -> & _ & _ & He)]; [|congruence].
    destruct (departures_arrivals allreduce cs _ _ HS (elem_nonempty _ _ Hd))
      as (_ & _ & out & Ho).
    congruence.
  - assert (forall t p, thr c !! t = Some p -> finished p = true ->
              t ∈ departures (log c)) as Hdep.
    { intros t p Hp Hf.
      destruct (finished_departed allreduce cs c t p HI Hp Hf)
        as [Hd|(e' & _ & _ & _ & He)]; [done|congruence]. }
    split.
    + destruct (Hall 0%nat) as (p & Hp & Hf).
      { destruct cs; simpl; [done|lia]. }
      destruct (inv_post _ _ _ _ HS (elem_nonempty _ _ (Hdep _ _ Hp Hf)))
        as (out' & Ho & Hl & _).
      congruence.
    + intros t Ht. destruct (Hall t Ht) as (p & Hp & Hf).
      pose proof (Hdep _ _ Hp Hf) as Hd.
      pose proof (inv_thr _ _ _ HI _ _ Hp) as Htp.
      destruct p as [| | | | | |[a b]|e]; try done; simpl in Htp.
      * destruct Htp as (idx & Ha & _ & _ & Hsl). exists idx.
        split; [done|]. rewrite Hp, Hsl. done.
      * destruct Htp as [(Hn' & _)|(_ & _ & -> & idx & Ha & Hg)]; [done|].
        exists idx. split; [done|]. rewrite Hp. f_equal.
        unfold slice_of, outcome_of_slice.
        destruct Hg as [-> | ->]; [done|].
        by destruct (py_getitem (list_ (sh c)) (2 * idx)).
Qed.

End Outcomes.

Lemma X11_witness :
  round2 <> [] /\
  steps allreduce_sum (start (__init__ 2) round2) final2 /\
  all_finished final2 /\
  list_ (sh final2) = [30; 20; 30; 20] /\
  forall t, (t < length round2)%nat ->
    exists idx, arrived (log final2) t idx /\
      thr final2 !! t = Some (outcome_of_slice (slice_of (sh final2) idx)).
Proof.
  assert (round2 <> []) as Hne by done.
  destruct (X11_a_round_ends_the_same_way_for_all allreduce_sum round2
              (__init__ 2) final2 Hne eq_refl start2_fresh steps_final2)
    as (_ & _ & H).
  split; [done|]. split; [apply steps_final2|].
  split; [apply final2_finished|].
  specialize (H final2_finished). cbv beta in H.
  change (reduced allreduce_sum (Z.of_nat (length round2))
            (buffer (log final2))) with
    (inr [30; 20; 30; 20] : @exn Empty_set + list Z) in H.
  destruct H as [H1 H2]. split; [reflexivity|exact H2].
Defined.
